(** * tlsdebug: the ClientHello sniffer

    A shallow embedding of the ClientHello-sniffing connection wrapper of
    package [tlsdebug]: the two stateless parsers [handshakeRecord] and
    [parseHello], and the methods [Read] and [Close] of [clientHelloConn].

    Go slices are lists of bytes; every index and slice expression of the
    source goes through a bounds-checked primitive that can [Panic], so the
    absence of run-time panics is a theorem and not an artefact of the
    encoding.  Machine integers are [Z] with their wrap-around written out. *)

From Stdlib Require Import ZArith List Bool Lia String.
From Stdlib Require Import Strings.Byte.
Import ListNotations.
Open Scope Z_scope.

(** ** Go run-time: results that may panic *)

Inductive exec (A : Type) : Type :=
| Ret (a : A)
| Panic (msg : string).

Arguments Ret {A} a.
Arguments Panic {A} msg.

Definition exec_bind {A B : Type} (m : exec A) (k : A -> exec B) : exec B :=
  match m with
  | Ret a => k a
  | Panic msg => Panic msg
  end.

Declare Scope exec_scope.
Delimit Scope exec_scope with exec.
Notation "x <- m ;; k" := (exec_bind m (fun x => k))
  (at level 61, m at next level, right associativity) : exec_scope.

(** ** Go integers and byte slices *)

(** [uint8] to integer conversion. *)
Definition u8 (v : byte) : Z := Z.of_N (Byte.to_N v).

(** Conversion to [uint16] and [uint32]: truncation to the low bits. *)
Definition uint16 (x : Z) : Z := x mod 2 ^ 16.
Definition uint32 (x : Z) : Z := x mod 2 ^ 32.

(** Conversion to [int], taken as the 64-bit two's complement integer. *)
Definition int (x : Z) : Z := (x + 2 ^ 63) mod 2 ^ 64 - 2 ^ 63.

(** [len(b)] *)
Definition len (b : list byte) : Z := Z.of_nat (List.length b).

(** [b[i]]: panics unless [0 <= i < len(b)]. *)
Definition index (b : list byte) (i : Z) : exec byte :=
  if (0 <=? i) && (i <? len b)
  then match nth_error b (Z.to_nat i) with
       | Some v => Ret v
       | None => Panic "index out of range"
       end
  else Panic "index out of range".

(** [b[lo:]]: panics unless [0 <= lo <= len(b)]. *)
Definition slice_from (b : list byte) (lo : Z) : exec (list byte) :=
  if (0 <=? lo) && (lo <=? len b)
  then Ret (skipn (Z.to_nat lo) b)
  else Panic "slice bounds out of range".

(** [b[:hi]].  Go permits [hi] up to the capacity of [b]; the model bounds
    it by the length, which is never larger, so an access that is in range
    here is in range in Go. *)
Definition slice_to (b : list byte) (hi : Z) : exec (list byte) :=
  if (0 <=? hi) && (hi <=? len b)
  then Ret (firstn (Z.to_nat hi) b)
  else Panic "slice bounds out of range".

(** [b[lo:hi]] *)
Definition slice (b : list byte) (lo hi : Z) : exec (list byte) :=
  if (0 <=? lo) && (lo <=? hi) && (hi <=? len b)
  then Ret (firstn (Z.to_nat (hi - lo)) (skipn (Z.to_nat lo) b))
  else Panic "slice bounds out of range".

(** [binary.BigEndian.Uint16]:
    [_ = b[1]; return uint16(b[1]) | uint16(b[0])<<8]. *)
Definition Uint16 (b : list byte) : exec Z :=
  (_ <- index b 1 ;;
   b1 <- index b 1 ;;
   b0 <- index b 0 ;;
   Ret (Z.lor (uint16 (u8 b1)) (uint16 (Z.shiftl (uint16 (u8 b0)) 8))))%exec.

(** ** Errors

    Go [error] values.  [io.EOF] and [io.ErrUnexpectedEOF] are the two
    sentinels the source compares against by identity; the others are
    built by [errors.New] and [fmt.Errorf] (kept as format and argument),
    and [net_Error] stands for whatever else a transport may return. *)
Inductive error : Type :=
| io_EOF
| io_ErrUnexpectedEOF
| errors_New (text : string)
| fmt_Errorf (format : string) (arg : Z)
| net_Error (text : string) (timeout : bool).

(** [err == io.ErrUnexpectedEOF] *)
Definition is_ErrUnexpectedEOF (e : option error) : bool :=
  match e with
  | Some io_ErrUnexpectedEOF => true
  | _ => false
  end.

(** [err != nil && err != io.EOF] *)
Definition is_transport_failure (e : option error) : bool :=
  match e with
  | None => false
  | Some io_EOF => false
  | Some _ => true
  end.

(** The pair [([]byte, error)] the two parsers return; the nil slice is
    the empty list. *)
Definition parsed : Type := (list byte * option error)%type.

(** ** The record parser *)

Module Record.
Definition headerSize : Z := 1 + 2 + 2.
Definition typeHandshake : Z := 22.
Definition majorVersion : Z := 3.
Definition maxRecordLength : Z := 16384.
End Record.

Definition errSSLv2 : error := errors_New "unsupported SSLv2 handshake received".
Definition errNotHandshake : error := errors_New "record type is not handshake".
Definition errVersion (vers : Z) : error :=
  fmt_Errorf "record has unsupported version %04x" vers.
Definition errRecordLength : error :=
  errors_New "record length is greater than maximum allowed".

(** Read one TLS record, which must be for the handshake protocol, from b. *)
Definition handshakeRecord (b : list byte) : exec parsed :=
  if len b <? Record.headerSize then Ret ([], Some io_ErrUnexpectedEOF)
  else
    (typ <- index b 0 ;;
     b1 <- slice_from b 1 ;;
     vers <- Uint16 b1 ;;
     b3 <- slice_from b 3 ;;
     length <- Uint16 b3 ;;
     b <- slice_from b Record.headerSize ;;
     if negb (u8 typ =? Record.typeHandshake) then
       if u8 typ =? 128 then Ret ([], Some errSSLv2)
       else Ret ([], Some errNotHandshake)
     else if negb (Z.shiftr vers 8 =? Record.majorVersion) then
       Ret ([], Some (errVersion vers))
     else if length >? Record.maxRecordLength then
       Ret ([], Some errRecordLength)
     else if int length >? len b then
       Ret ([], Some io_ErrUnexpectedEOF)
     else
       (p <- slice_to b length ;; Ret (p, None)))%exec.

(** ** The handshake parser *)

Module Hello.
Definition headerSize : Z := 1 + 3.
Definition typeClientHello : Z := 1.
End Hello.

Definition errHelloShort : error := errors_New "handshake record is too short".
Definition errNotClientHello (typ : Z) : error :=
  fmt_Errorf "handshake record (%d) is not ClientHello" typ.
Definition errHelloLength : error :=
  errors_New "handshake record has invalid length".

(** The loop [for _, v := range b[1:4] { length = (length << 8) | uint32(v) }]
    over a [uint32] accumulator. *)
Definition be_accumulate (s : list byte) : Z :=
  fold_left (fun length v => uint32 (Z.lor (uint32 (Z.shiftl length 8)) (uint32 (u8 v)))) s 0.

(** Parse a TLS handshake record as a ClientHello message. *)
Definition parseHello (b : list byte) : exec parsed :=
  if len b <? Hello.headerSize then Ret ([], Some errHelloShort)
  else
    (typ <- index b 0 ;;
     s <- slice b 1 4 ;;
     let length := be_accumulate s in
     b <- slice_from b Hello.headerSize ;;
     if negb (u8 typ =? Hello.typeClientHello) then
       Ret ([], Some (errNotClientHello (u8 typ)))
     else if int length >? len b then
       Ret ([], Some errHelloLength)
     else
       (p <- slice_to b length ;; Ret (p, None)))%exec.

(** The three-way reading of a parser's result that [Read] acts on: a nil
    error is a complete payload, [io.ErrUnexpectedEOF] asks for more
    bytes, any other error is final. *)
Inductive ParseOutcome : Type :=
| Complete (payload : list byte)
| NeedMoreData
| Invalid (reason : error).

Definition outcome (r : parsed) : ParseOutcome :=
  match r with
  | (p, None) => Complete p
  | (_, Some io_ErrUnexpectedEOF) => NeedMoreData
  | (_, Some e) => Invalid e
  end.

(** ** The reassembly buffer and its pool *)

(** A [*bytes.Buffer]: the address tells buffers apart, the contents are
    the unread bytes.  Capacity is not observable by the sniffer and is
    left out. *)
Record Buffer : Type := { addr : nat; contents : list byte }.

Definition Buffer_Write (bf : Buffer) (p : list byte) : Buffer :=
  {| addr := addr bf; contents := contents bf ++ p |}.

Definition Buffer_Bytes (bf : Buffer) : list byte := contents bf.

Definition Buffer_Reset (bf : Buffer) : Buffer :=
  {| addr := addr bf; contents := [] |}.

(** [Grow] reserves capacity and keeps the contents; it panics on a
    negative count. *)
Definition Buffer_Grow (bf : Buffer) (n : Z) : exec Buffer :=
  if n <? 0 then Panic "bytes.Buffer.Grow: negative count" else Ret bf.

(** [sync.Pool] with [New] returning [new(bytes.Buffer)]: [Get] hands out
    a pooled buffer when there is one and a fresh empty buffer otherwise. *)
Record Pool : Type := { free : list Buffer; fresh : nat }.

Definition Pool_Get (p : Pool) : Buffer * Pool :=
  match free p with
  | bf :: rest => (bf, {| free := rest; fresh := fresh p |})
  | [] => ({| addr := fresh p; contents := [] |},
           {| free := []; fresh := S (fresh p) |})
  end.

Definition Pool_Put (bf : Buffer) (p : Pool) : Pool :=
  {| free := bf :: free p; fresh := fresh p |}.

(** ** The connection wrapper *)

(** What the underlying [Conn.Read(b)] produced: the bytes [b[:n]] it
    filled in and its error; [n] is the length of [filled]. *)
Record ReadResult : Type := { filled : list byte; err : option error }.

(** Everything the wrapper does to the outside. *)
Inductive Event : Type :=
| Ev_Conn_Read (r : ReadResult)
| Ev_Conn_Close (e : option error)
| Ev_fn (hello : list byte) (herr : option error)
| Ev_Pool_Get (a : nat)
| Ev_Pool_Put (a : nat).

(** The mutable fields of [clientHelloConn]; [Conn] and [fn] are the
    environment. *)
Record clientHelloConn : Type := { buf : option Buffer; doneCH : bool }.

Record World : Type :=
  { ch : clientHelloConn; bufferPool : Pool; trace : list Event }.

(** State over [World], with panics. *)
Definition M (A : Type) : Type := World -> exec (A * World).

Definition ret {A : Type} (a : A) : M A := fun w => Ret (a, w).

Definition bind {A B : Type} (m : M A) (k : A -> M B) : M B :=
  fun w => match m w with
           | Ret (a, w') => k a w'
           | Panic msg => Panic msg
           end.

Definition lift {A : Type} (e : exec A) : M A :=
  fun w => match e with
           | Ret a => Ret (a, w)
           | Panic msg => Panic msg
           end.

Declare Scope conn_scope.
Delimit Scope conn_scope with conn.
Notation "x <- m ;; k" := (bind m (fun x => k))
  (at level 61, m at next level, right associativity) : conn_scope.
Notation "m ;; k" := (bind m (fun _ => k))
  (at level 61, right associativity) : conn_scope.

Definition emit (e : Event) : M unit :=
  fun w => Ret (tt, {| ch := ch w; bufferPool := bufferPool w;
                       trace := trace w ++ [e] |}).

Definition get_buf : M (option Buffer) := fun w => Ret (buf (ch w), w).

Definition set_buf (b : option Buffer) : M unit :=
  fun w => Ret (tt, {| ch := {| buf := b; doneCH := doneCH (ch w) |};
                       bufferPool := bufferPool w; trace := trace w |}).

Definition get_doneCH : M bool := fun w => Ret (doneCH (ch w), w).

Definition set_doneCH (d : bool) : M unit :=
  fun w => Ret (tt, {| ch := {| buf := buf (ch w); doneCH := d |};
                       bufferPool := bufferPool w; trace := trace w |}).

Definition bufferPool_Get : M Buffer :=
  fun w => let (bf, p) := Pool_Get (bufferPool w) in
           Ret (bf, {| ch := ch w; bufferPool := p;
                       trace := trace w ++ [Ev_Pool_Get (addr bf)] |}).

Definition bufferPool_Put (bf : Buffer) : M unit :=
  fun w => Ret (tt, {| ch := ch w; bufferPool := Pool_Put bf (bufferPool w);
                       trace := trace w ++ [Ev_Pool_Put (addr bf)] |}).

(** The observer callback [ch.fn(ch.Conn, hb, herr)]. *)
Definition fn (hb : list byte) (herr : option error) : M unit :=
  emit (Ev_fn hb herr).

Definition Conn_Read (under : ReadResult) : M ReadResult :=
  (emit (Ev_Conn_Read under) ;; ret under)%conn.

Definition Conn_Close (under : option error) : M (option error) :=
  (emit (Ev_Conn_Close under) ;; ret under)%conn.

(** [if ch.buf != nil { ch.buf.Reset(); bufferPool.Put(ch.buf); ch.buf = nil }] *)
Definition release_buf : M unit :=
  (cur <- get_buf ;;
   match cur with
   | Some bf => bufferPool_Put (Buffer_Reset bf) ;; set_buf None
   | None => ret tt
   end)%conn.

(** [ClientHelloConn(c, fn)] *)
Definition ClientHelloConn (pool : Pool) : World :=
  {| ch := {| buf := None; doneCH := false |};
     bufferPool := pool; trace := [] |}.

Definition Close (under : option error) : M (option error) :=
  (release_buf ;; Conn_Close under)%conn.

Definition Read (under : ReadResult) : M ReadResult :=
  (r <- Conn_Read under ;;
   done <- get_doneCH ;;
   if done || is_transport_failure (err r) then ret r
   else
     cur <- get_buf ;;
     hb <- match cur with
           | Some bf =>
               let bf := Buffer_Write bf (filled r) in
               set_buf (Some bf) ;; ret (Buffer_Bytes bf)
           | None => ret (filled r)
           end ;;
     res <- lift (handshakeRecord hb) ;;
     let (hb, herr) := res : parsed in
     if is_ErrUnexpectedEOF herr then
       cur <- get_buf ;;
       match cur with
       | Some _ => ret r
       | None =>
           bf <- bufferPool_Get ;;
           bf <- lift (Buffer_Grow bf (512 + 32)) ;;
           set_buf (Some (Buffer_Write bf (filled r))) ;;
           ret r
       end
     else
       set_doneCH true ;;
       res <- match herr with
              | None => lift (parseHello hb)
              | Some _ => ret (hb, herr)
              end ;;
       let (hb, herr) := res : parsed in
       fn hb herr ;;
       release_buf ;;
       ret r)%conn.

(** ** Sequences of calls on one connection *)

Inductive Call : Type :=
| Call_Read (under : ReadResult)
| Call_Close (under : option error).

Inductive Reply : Type :=
| Reply_Read (r : ReadResult)
| Reply_Close (e : option error).

Definition call (c : Call) : M Reply :=
  match c with
  | Call_Read under => (r <- Read under ;; ret (Reply_Read r))%conn
  | Call_Close under => (e <- Close under ;; ret (Reply_Close e))%conn
  end.

Fixpoint run (cs : list Call) : M (list Reply) :=
  match cs with
  | [] => ret []
  | c :: cs => (r <- call c ;; rs <- run cs ;; ret (r :: rs))%conn
  end.

(** What the transport answers to a call, and the bytes of a reply. *)
Definition answer (c : Call) : Reply :=
  match c with
  | Call_Read under => Reply_Read under
  | Call_Close under => Reply_Close under
  end.

Definition bytes_of (r : Reply) : list byte :=
  match r with
  | Reply_Read r => filled r
  | Reply_Close _ => []
  end.

(** Reading a stream that arrives in the given pieces, without error. *)
Definition reads (chunks : list (list byte)) : list Call :=
  map (fun c => Call_Read {| filled := c; err := None |}) chunks.

(** Number of times the observer has been called. *)
Fixpoint count_fn (t : list Event) : nat :=
  match t with
  | [] => O
  | Ev_fn _ _ :: t => S (count_fn t)
  | _ :: t => count_fn t
  end.

(** ** Vocabulary of the statements *)

(** The big-endian value of two and of three bytes: the declared length
    of a record ([b[3:5]]) and of a handshake message ([b[1:4]]). *)
Definition be16 (hi lo : byte) : Z := 256 * u8 hi + u8 lo.
Definition be24 (b2 b1 b0 : byte) : Z := 65536 * u8 b2 + 256 * u8 b1 + u8 b0.

(** The outcome of a parser run. *)
Definition run_outcome (e : exec parsed) : exec ParseOutcome :=
  match e with
  | Ret r => Ret (outcome r)
  | Panic msg => Panic msg
  end.

(** The errors [handshakeRecord] and [parseHello] are written to return. *)
Definition Record_error (e : error) : Prop :=
  e = io_ErrUnexpectedEOF \/ e = errSSLv2 \/ e = errNotHandshake \/
  (exists vers, e = errVersion vers) \/ e = errRecordLength.

Definition Hello_error (e : error) : Prop :=
  e = errHelloShort \/ (exists typ, e = errNotClientHello typ) \/
  e = errHelloLength.

(** The bytes [Read] hands to [handshakeRecord]: what is buffered so far
    followed by what the underlying read just filled in. *)
Definition seen (w : World) (r : ReadResult) : list byte :=
  match buf (ch w) with
  | Some bf => contents bf ++ filled r
  | None => filled r
  end.

(** The world with more events and nothing else changed. *)
Definition logged (w : World) (es : list Event) : World :=
  {| ch := ch w; bufferPool := bufferPool w; trace := trace w ++ es |}.

(** The world after a read that leaves the record incomplete. *)
Definition waiting (w : World) (r : ReadResult) : World :=
  match buf (ch w) with
  | Some bf =>
      {| ch := {| buf := Some (Buffer_Write bf (filled r)); doneCH := false |};
         bufferPool := bufferPool w;
         trace := trace w ++ [Ev_Conn_Read r] |}
  | None =>
      let (bf, p) := Pool_Get (bufferPool w) in
      {| ch := {| buf := Some (Buffer_Write bf (filled r)); doneCH := false |};
         bufferPool := p;
         trace := trace w ++ [Ev_Conn_Read r; Ev_Pool_Get (addr bf)] |}
  end.

(** The world after the read that ends sniffing with [fn(hb, herr)]. *)
Definition finished (w : World) (r : ReadResult)
    (hb : list byte) (herr : option error) : World :=
  {| ch := {| buf := None; doneCH := true |};
     bufferPool :=
       match buf (ch w) with
       | Some bf => Pool_Put (Buffer_Reset (Buffer_Write bf (filled r))) (bufferPool w)
       | None => bufferPool w
       end;
     trace :=
       trace w ++ Ev_Conn_Read r :: Ev_fn hb herr ::
       match buf (ch w) with
       | Some bf => [Ev_Pool_Put (addr bf)]
       | None => []
       end |}.

(** The world after [Close]. *)
Definition closed (w : World) (e : option error) : World :=
  {| ch := {| buf := None; doneCH := doneCH (ch w) |};
     bufferPool :=
       match buf (ch w) with
       | Some bf => Pool_Put (Buffer_Reset bf) (bufferPool w)
       | None => bufferPool w
       end;
     trace :=
       trace w ++
       match buf (ch w) with
       | Some bf => [Ev_Pool_Put (addr bf); Ev_Conn_Close e]
       | None => [Ev_Conn_Close e]
       end |}.

(** The call on the underlying connection that a call delegates to. *)
Definition event_of (c : Call) : Event :=
  match c with
  | Call_Read under => Ev_Conn_Read under
  | Call_Close under => Ev_Conn_Close under
  end.

Definition b2n (b : bool) : nat := if b then 1%nat else 0%nat.

(** An empty pool, and a read that fails with a timeout. *)
Definition pool0 : Pool := {| free := []; fresh := O |}.

Definition timed_out : ReadResult :=
  {| filled := []; err := Some (net_Error "i/o timeout" true) |}.

Definition delivered (p : list byte) : ReadResult :=
  {| filled := p; err := None |}.

(** A connection that has read the first three bytes of a record. *)
Definition half_read : World :=
  {| ch := {| buf := Some {| addr := O; contents := [x16; x03; x01] |};
              doneCH := false |};
     bufferPool := {| free := []; fresh := 1 |};
     trace := [Ev_Conn_Read (delivered [x16; x03; x01]); Ev_Pool_Get O] |}.

(** What every call preserves: the done flag is never cleared, the
    observer is called exactly when the flag goes up, and a connection
    that is done holds no buffer. *)
Definition Step (w w' : World) : Prop :=
  (doneCH (ch w) = true -> doneCH (ch w') = true) /\
  (count_fn (trace w') + b2n (doneCH (ch w))
   = count_fn (trace w) + b2n (doneCH (ch w')))%nat /\
  ((doneCH (ch w) = true -> buf (ch w) = None) ->
   (doneCH (ch w') = true -> buf (ch w') = None)).

(** [clientHelloListener.Accept]: an error of the underlying listener is
    returned as it is, and a connection is wrapped by [ClientHelloConn];
    the pool is the one all connections share. *)
Definition Accept (under : option error) (pool : Pool)
  : option World * option error :=
  match under with
  | Some e => (None, Some e)
  | None => (Some (ClientHelloConn pool), None)
  end.

(** ** Version and cipher suite names *)

(** Constants of Go's [crypto/tls], with the values that package gives
    them. *)
Module tls.
Definition VersionSSL30 : Z := 0x0300.
Definition VersionTLS10 : Z := 0x0301.
Definition VersionTLS11 : Z := 0x0302.
Definition VersionTLS12 : Z := 0x0303.
Definition TLS_RSA_WITH_RC4_128_SHA : Z := 0x0005.
Definition TLS_RSA_WITH_3DES_EDE_CBC_SHA : Z := 0x000a.
Definition TLS_RSA_WITH_AES_128_CBC_SHA : Z := 0x002f.
Definition TLS_RSA_WITH_AES_256_CBC_SHA : Z := 0x0035.
Definition TLS_RSA_WITH_AES_128_CBC_SHA256 : Z := 0x003c.
Definition TLS_RSA_WITH_AES_128_GCM_SHA256 : Z := 0x009c.
Definition TLS_RSA_WITH_AES_256_GCM_SHA384 : Z := 0x009d.
Definition TLS_ECDHE_ECDSA_WITH_RC4_128_SHA : Z := 0xc007.
Definition TLS_ECDHE_ECDSA_WITH_AES_128_CBC_SHA : Z := 0xc009.
Definition TLS_ECDHE_ECDSA_WITH_AES_256_CBC_SHA : Z := 0xc00a.
Definition TLS_ECDHE_RSA_WITH_RC4_128_SHA : Z := 0xc011.
Definition TLS_ECDHE_RSA_WITH_3DES_EDE_CBC_SHA : Z := 0xc012.
Definition TLS_ECDHE_RSA_WITH_AES_128_CBC_SHA : Z := 0xc013.
Definition TLS_ECDHE_RSA_WITH_AES_256_CBC_SHA : Z := 0xc014.
Definition TLS_ECDHE_ECDSA_WITH_AES_128_CBC_SHA256 : Z := 0xc023.
Definition TLS_ECDHE_RSA_WITH_AES_128_CBC_SHA256 : Z := 0xc027.
Definition TLS_ECDHE_RSA_WITH_AES_128_GCM_SHA256 : Z := 0xc02f.
Definition TLS_ECDHE_ECDSA_WITH_AES_128_GCM_SHA256 : Z := 0xc02b.
Definition TLS_ECDHE_RSA_WITH_AES_256_GCM_SHA384 : Z := 0xc030.
Definition TLS_ECDHE_ECDSA_WITH_AES_256_GCM_SHA384 : Z := 0xc02c.
Definition TLS_ECDHE_RSA_WITH_CHACHA20_POLY1305 : Z := 0xcca8.
Definition TLS_ECDHE_ECDSA_WITH_CHACHA20_POLY1305 : Z := 0xcca9.
End tls.

(** A Go map with [uint16] keys, as the list of the entries of its
    literal; the keys of a map literal are distinct. *)
Fixpoint map_index {V : Type} (m : list (Z * V)) (k : Z) : option V :=
  match m with
  | [] => None
  | (k', v) :: m => if k =? k' then Some v else map_index m k
  end.

Definition tls13_VersionTLS13 : Z := 0x0304.
Definition tls13_VersionTLS13Draft18 : Z := Z.lor 0x7f00 18.
Definition tls13_VersionTLS13Draft22 : Z := Z.lor 0x7f00 22.

Definition versionToName : list (Z * string) :=
  [ (tls.VersionSSL30, "SSL 3.0"%string);
    (tls.VersionTLS10, "TLS 1.0"%string);
    (tls.VersionTLS11, "TLS 1.1"%string);
    (tls.VersionTLS12, "TLS 1.2"%string);
    (tls13_VersionTLS13, "TLS 1.3"%string);
    (tls13_VersionTLS13Draft18, "TLS 1.3 (draft 18)"%string);
    (tls13_VersionTLS13Draft22, "TLS 1.3 (draft 22)"%string) ].

(** [versionToName[vers]]: the empty string on a missing key. *)
Definition VersionName (vers : Z) : string :=
  match map_index versionToName vers with
  | Some s => s
  | None => EmptyString
  end.

Definition tls13_TLS_AES_128_GCM_SHA256 : Z := 0x1301.
Definition tls13_TLS_AES_256_GCM_SHA384 : Z := 0x1302.
Definition tls13_TLS_CHACHA20_POLY1305_SHA256 : Z := 0x1303.

(** [1 << iota] *)
Definition suiteECDHE : Z := Z.shiftl 1 0.
Definition suiteECDSA : Z := Z.shiftl 1 1.
Definition suiteTLS12 : Z := Z.shiftl 1 2.
Definition suiteTLS13 : Z := Z.shiftl 1 3.

Record CipherSuite : Type := { flags : Z; name : string }.

Definition cipherSuites : list (Z * CipherSuite) :=
  [ (tls13_TLS_CHACHA20_POLY1305_SHA256,
     {| flags := suiteTLS13; name := "TLS_CHACHA20_POLY1305_SHA256" |});
    (tls13_TLS_AES_128_GCM_SHA256,
     {| flags := suiteTLS13; name := "TLS_AES_128_GCM_SHA256" |});
    (tls13_TLS_AES_256_GCM_SHA384,
     {| flags := suiteTLS13; name := "TLS_AES_256_GCM_SHA384" |});
    (tls.TLS_ECDHE_RSA_WITH_CHACHA20_POLY1305,
     {| flags := Z.lor suiteECDHE suiteTLS12;
        name := "TLS_ECDHE_RSA_WITH_CHACHA20_POLY1305" |});
    (tls.TLS_ECDHE_ECDSA_WITH_CHACHA20_POLY1305,
     {| flags := Z.lor (Z.lor suiteECDHE suiteECDSA) suiteTLS12;
        name := "TLS_ECDHE_ECDSA_WITH_CHACHA20_POLY1305" |});
    (tls.TLS_ECDHE_RSA_WITH_AES_128_GCM_SHA256,
     {| flags := Z.lor suiteECDHE suiteTLS12;
        name := "TLS_ECDHE_RSA_WITH_AES_128_GCM_SHA256" |});
    (tls.TLS_ECDHE_ECDSA_WITH_AES_128_GCM_SHA256,
     {| flags := Z.lor (Z.lor suiteECDHE suiteECDSA) suiteTLS12;
        name := "TLS_ECDHE_ECDSA_WITH_AES_128_GCM_SHA256" |});
    (tls.TLS_ECDHE_RSA_WITH_AES_256_GCM_SHA384,
     {| flags := Z.lor suiteECDHE suiteTLS12;
        name := "TLS_ECDHE_RSA_WITH_AES_256_GCM_SHA384" |});
    (tls.TLS_ECDHE_ECDSA_WITH_AES_256_GCM_SHA384,
     {| flags := Z.lor (Z.lor suiteECDHE suiteECDSA) suiteTLS12;
        name := "TLS_ECDHE_ECDSA_WITH_AES_256_GCM_SHA384" |});
    (tls.TLS_ECDHE_RSA_WITH_AES_128_CBC_SHA256,
     {| flags := Z.lor suiteECDHE suiteTLS12;
        name := "TLS_ECDHE_RSA_WITH_AES_128_CBC_SHA256" |});
    (tls.TLS_ECDHE_RSA_WITH_AES_128_CBC_SHA,
     {| flags := suiteECDHE; name := "TLS_ECDHE_RSA_WITH_AES_128_CBC_SHA" |});
    (tls.TLS_ECDHE_ECDSA_WITH_AES_128_CBC_SHA256,
     {| flags := Z.lor (Z.lor suiteECDHE suiteECDSA) suiteTLS12;
        name := "TLS_ECDHE_ECDSA_WITH_AES_128_CBC_SHA256" |});
    (tls.TLS_ECDHE_ECDSA_WITH_AES_128_CBC_SHA,
     {| flags := Z.lor suiteECDHE suiteECDSA;
        name := "TLS_ECDHE_ECDSA_WITH_AES_128_CBC_SHA" |});
    (tls.TLS_ECDHE_RSA_WITH_AES_256_CBC_SHA,
     {| flags := suiteECDHE; name := "TLS_ECDHE_RSA_WITH_AES_256_CBC_SHA" |});
    (tls.TLS_ECDHE_ECDSA_WITH_AES_256_CBC_SHA,
     {| flags := Z.lor suiteECDHE suiteECDSA;
        name := "TLS_ECDHE_ECDSA_WITH_AES_256_CBC_SHA" |});
    (tls.TLS_RSA_WITH_AES_128_GCM_SHA256,
     {| flags := suiteTLS12; name := "TLS_RSA_WITH_AES_128_GCM_SHA256" |});
    (tls.TLS_RSA_WITH_AES_256_GCM_SHA384,
     {| flags := suiteTLS12; name := "TLS_RSA_WITH_AES_256_GCM_SHA384" |});
    (tls.TLS_RSA_WITH_AES_128_CBC_SHA256,
     {| flags := suiteTLS12; name := "TLS_RSA_WITH_AES_128_CBC_SHA256" |});
    (tls.TLS_RSA_WITH_AES_128_CBC_SHA,
     {| flags := 0; name := "TLS_RSA_WITH_AES_128_CBC_SHA" |});
    (tls.TLS_RSA_WITH_AES_256_CBC_SHA,
     {| flags := 0; name := "TLS_RSA_WITH_AES_256_CBC_SHA" |});
    (tls.TLS_ECDHE_RSA_WITH_3DES_EDE_CBC_SHA,
     {| flags := suiteECDHE; name := "TLS_ECDHE_RSA_WITH_3DES_EDE_CBC_SHA" |});
    (tls.TLS_RSA_WITH_3DES_EDE_CBC_SHA,
     {| flags := 0; name := "TLS_RSA_WITH_3DES_EDE_CBC_SHA" |});
    (tls.TLS_RSA_WITH_RC4_128_SHA,
     {| flags := 0; name := "TLS_RSA_WITH_RC4_128_SHA" |});
    (tls.TLS_ECDHE_RSA_WITH_RC4_128_SHA,
     {| flags := suiteECDHE; name := "TLS_ECDHE_RSA_WITH_RC4_128_SHA" |});
    (tls.TLS_ECDHE_ECDSA_WITH_RC4_128_SHA,
     {| flags := Z.lor suiteECDHE suiteECDSA;
        name := "TLS_ECDHE_ECDSA_WITH_RC4_128_SHA" |}) ].

(** [cipherSuites[id]]: a nil pointer, here [None], on a missing key. *)
Definition CipherSuiteByID (id : Z) : option CipherSuite :=
  map_index cipherSuites id.

(** The methods of [*CipherSuite]; the receiver may be nil. *)
Definition Name (cs : option CipherSuite) : string :=
  match cs with
  | None => EmptyString
  | Some c => name c
  end.

Definition ECDHE (cs : option CipherSuite) : bool :=
  match cs with
  | None => false
  | Some c => Z.land (flags c) (Z.lor suiteECDHE suiteTLS13) =? suiteECDHE
  end.

Definition RSA (cs : option CipherSuite) : bool :=
  match cs with
  | None => false
  | Some c => Z.land (flags c) (Z.lor suiteECDSA suiteTLS13) =? 0
  end.

Definition ECDSA (cs : option CipherSuite) : bool :=
  match cs with
  | None => false
  | Some c => Z.land (flags c) (Z.lor suiteECDSA suiteTLS13) =? suiteECDSA
  end.

Definition TLS12 (cs : option CipherSuite) : bool :=
  match cs with
  | None => false
  | Some c => negb (Z.land (flags c) suiteTLS12 =? 0)
  end.

Definition TLS13 (cs : option CipherSuite) : bool :=
  match cs with
  | None => false
  | Some c => negb (Z.land (flags c) suiteTLS13 =? 0)
  end.

(** The codes [VersionName] knows. *)
Definition known_versions : list Z := map fst versionToName.

(** ** The sniffer as a function of the bytes *)

(** What [Read] computes from the bytes it has, between the call of
    [handshakeRecord] and the call of [fn]: [None] while the record is
    incomplete, and otherwise the slice and the error handed to [fn]. *)
Definition sniff (b : list byte) : exec (option parsed) :=
  (res <- handshakeRecord b ;;
   let (hb, herr) := res : parsed in
   if is_ErrUnexpectedEOF herr then Ret None
   else
     res <- match herr with
            | None => parseHello hb
            | Some _ => Ret (hb, herr)
            end ;;
     Ret (Some res))%exec.

(** [err != nil && err != io.EOF] on the result of a read. *)
Definition failed (r : ReadResult) : bool := is_transport_failure (err r).

(** The bytes of the reads that [Read] looks at: those of the reads that
    did not fail. *)
Fixpoint sniffed (rs : list ReadResult) : list byte :=
  match rs with
  | [] => []
  | r :: rs => if failed r then sniffed rs else filled r ++ sniffed rs
  end.

(** The arguments of the calls of the observer, in order. *)
Fixpoint fn_calls (t : list Event) : list parsed :=
  match t with
  | [] => []
  | Ev_fn hb herr :: t => (hb, herr) :: fn_calls t
  | _ :: t => fn_calls t
  end.

(** Number of [bufferPool.Get] and of [bufferPool.Put] calls. *)
Fixpoint count_get (t : list Event) : nat :=
  match t with
  | [] => O
  | Ev_Pool_Get _ :: t => S (count_get t)
  | _ :: t => count_get t
  end.

Fixpoint count_put (t : list Event) : nat :=
  match t with
  | [] => O
  | Ev_Pool_Put _ :: t => S (count_put t)
  | _ :: t => count_put t
  end.

(** Number of buffers the connection holds, and their addresses. *)
Definition held (w : World) : nat :=
  match buf (ch w) with
  | Some _ => 1%nat
  | None => 0%nat
  end.

Definition held_addrs (w : World) : list nat :=
  match buf (ch w) with
  | Some bf => [addr bf]
  | None => []
  end.

(** Every pooled buffer is empty. *)
Definition pool_clean (p : Pool) : Prop :=
  Forall (fun bf => contents bf = []) (free p).

(** The pooled buffers are distinct objects, allocated before [fresh]. *)
Definition pool_wf (p : Pool) : Prop :=
  NoDup (map addr (free p)) /\ Forall (fun bf => (addr bf < fresh p)%nat) (free p).

(** A connection that is still sniffing, with [acc] in its buffer. *)
Definition Sniffing (w : World) (acc : list byte) : Prop :=
  doneCH (ch w) = false /\
  pool_clean (bufferPool w) /\
  match buf (ch w) with
  | Some bf => contents bf = acc
  | None => acc = []
  end.

(** What holds of every state a connection gets into: the pool is clean,
    and a held buffer belongs to a connection that is not done and holds
    bytes that do not yet decide. *)
Definition Inv (w : World) : Prop :=
  pool_clean (bufferPool w) /\
  forall bf, buf (ch w) = Some bf ->
    doneCH (ch w) = false /\ sniff (contents bf) = Ret None.

(** Buffers are owned once: by the connection or by the pool. *)
Definition Owned (w : World) : Prop :=
  NoDup (held_addrs w ++ map addr (free (bufferPool w))) /\
  Forall (fun a => (a < fresh (bufferPool w))%nat)
         (held_addrs w ++ map addr (free (bufferPool w))).

(** The two forms of the arguments of the observer: a slice that fits in
    a record after the handshake header, or a nil slice and an error of
    one of the parsers. *)
Definition well_formed_call (c : parsed) : Prop :=
  match c with
  | (hb, None) => len hb <= 16384 - 4
  | (hb, Some e) =>
      hb = [] /\ (Record_error e \/ Hello_error e) /\
      e <> io_ErrUnexpectedEOF /\ e <> io_EOF
  end.

(** A read of [p] that ends the stream. *)
Definition last_read (p : list byte) : ReadResult :=
  {| filled := p; err := Some io_EOF |}.

Arguments len : simpl never.
Arguments u8 : simpl never.
Arguments uint16 : simpl never.
Arguments uint32 : simpl never.
Arguments int : simpl never.

(** ** Running the model on concrete inputs *)

Definition hello_record : list byte :=
  [x16; x03; x01; x00; x04; x01; x00; x00; x00].

Example handshakeRecord_hello :
  handshakeRecord hello_record = Ret ([x01; x00; x00; x00], None).
Proof. reflexivity. Qed.

Example parseHello_empty_body :
  parseHello [x01; x00; x00; x00] = Ret ([], None).
Proof. reflexivity. Qed.

Example handshakeRecord_one_byte :
  handshakeRecord [x80] = Ret ([], Some io_ErrUnexpectedEOF).
Proof. reflexivity. Qed.

Example Read_three_bytes :
  Read (delivered [x16; x03; x01]) (ClientHelloConn pool0)
  = Ret (delivered [x16; x03; x01], half_read).
Proof. reflexivity. Qed.

Example Read_in_two_pieces :
  exists w,
    run (reads [[x16; x03; x01]; [x00; x04; x01; x00; x00; x00]])
        (ClientHelloConn {| free := []; fresh := O |}) = Ret
      ([Reply_Read {| filled := [x16; x03; x01]; err := None |};
        Reply_Read {| filled := [x00; x04; x01; x00; x00; x00]; err := None |}], w)
    /\ ch w = {| buf := None; doneCH := true |}
    /\ trace w =
       [Ev_Conn_Read {| filled := [x16; x03; x01]; err := None |};
        Ev_Pool_Get O;
        Ev_Conn_Read {| filled := [x00; x04; x01; x00; x00; x00]; err := None |};
        Ev_fn [] None;
        Ev_Pool_Put O].
Proof. eexists. split; [vm_compute; reflexivity|split; reflexivity]. Qed.

(** ** Integers and slices: basic facts *)

Lemma u8_range (v : byte) : 0 <= u8 v < 256.
Proof.
  unfold u8. pose proof (Byte.to_N_bounded v). lia.
Qed.

Lemma u8_inj (v v' : byte) : u8 v = u8 v' -> v = v'.
Proof.
  unfold u8. intros H. apply N2Z.inj in H.
  pose proof (Byte.of_to_N v) as E. rewrite H, Byte.of_to_N in E.
  now inversion E.
Qed.

Lemma len_nonneg (b : list byte) : 0 <= len b.
Proof. unfold len. lia. Qed.

Lemma len_nil : len [] = 0.
Proof. reflexivity. Qed.

Lemma len_cons (v : byte) (b : list byte) : len (v :: b) = 1 + len b.
Proof. unfold len. cbn [List.length]. lia. Qed.

Lemma len_app (b b' : list byte) : len (b ++ b') = len b + len b'.
Proof. unfold len. rewrite length_app. lia. Qed.

Lemma uint16_small (x : Z) : 0 <= x < 2 ^ 16 -> uint16 x = x.
Proof. intros. unfold uint16. now apply Z.mod_small. Qed.

Lemma uint32_small (x : Z) : 0 <= x < 2 ^ 32 -> uint32 x = x.
Proof. intros. unfold uint32. now apply Z.mod_small. Qed.

Lemma int_small (x : Z) : - 2 ^ 63 <= x < 2 ^ 63 -> int x = x.
Proof. intros. unfold int. rewrite Z.mod_small; lia. Qed.

Lemma lor_shiftl_8 (x v : Z) :
  0 <= v < 256 -> Z.lor (Z.shiftl x 8) v = 256 * x + v.
Proof.
  intros Hv.
  assert (Z.land (Z.shiftl x 8) v = 0) as Hdisj.
  { apply Z.bits_inj'. intros n Hn.
    rewrite Z.land_spec, Z.bits_0.
    destruct (Z.ltb_spec n 8).
    - rewrite Z.shiftl_spec_low by lia. reflexivity.
    - destruct (Z.eq_dec v 0) as [-> | Hnz].
      + rewrite Z.bits_0. apply andb_false_r.
      + rewrite (Z.bits_above_log2 v n); [apply andb_false_r | lia |].
        apply Z.lt_le_trans with 8; [| lia].
        apply Z.log2_lt_pow2; lia. }
  pose proof (Z.add_lor_land (Z.shiftl x 8) v) as E.
  rewrite Hdisj, Z.add_0_r in E. rewrite E.
  rewrite Z.shiftl_mul_pow2 by lia. change (2 ^ 8) with 256. lia.
Qed.

Lemma shiftr_be16 (hi lo : byte) : Z.shiftr (be16 hi lo) 8 = u8 hi.
Proof.
  unfold be16. pose proof (u8_range lo).
  rewrite Z.shiftr_div_pow2 by lia.
  change (2 ^ 8) with 256. Z.div_mod_to_equations. lia.
Qed.

Lemma be16_range (hi lo : byte) : 0 <= be16 hi lo < 2 ^ 16.
Proof.
  unfold be16. pose proof (u8_range hi). pose proof (u8_range lo). lia.
Qed.

Lemma be24_range (b2 b1 b0 : byte) : 0 <= be24 b2 b1 b0 < 2 ^ 24.
Proof.
  unfold be24.
  pose proof (u8_range b2). pose proof (u8_range b1). pose proof (u8_range b0).
  lia.
Qed.

Lemma accumulate_step (x : Z) (v : byte) :
  0 <= x < 2 ^ 24 ->
  uint32 (Z.lor (uint32 (Z.shiftl x 8)) (uint32 (u8 v))) = 256 * x + u8 v.
Proof.
  intros Hx. pose proof (u8_range v) as Hv.
  assert (Z.shiftl x 8 = 256 * x) as E.
  { rewrite Z.shiftl_mul_pow2 by lia. change (2 ^ 8) with 256. lia. }
  rewrite (uint32_small (Z.shiftl x 8)) by (rewrite E; lia).
  rewrite (uint32_small (u8 v)) by lia.
  rewrite lor_shiftl_8 by lia.
  apply uint32_small. lia.
Qed.

Lemma be_accumulate_3 (b2 b1 b0 : byte) :
  be_accumulate [b2; b1; b0] = be24 b2 b1 b0.
Proof.
  pose proof (u8_range b2). pose proof (u8_range b1). pose proof (u8_range b0).
  unfold be_accumulate, be24. cbn [fold_left].
  rewrite (accumulate_step 0 b2) by lia.
  rewrite (accumulate_step _ b1) by lia.
  rewrite (accumulate_step _ b0) by lia.
  lia.
Qed.

(** Settles the bounds checks of the slice primitives. *)
Ltac in_range :=
  repeat match goal with
         | |- context [len (_ :: _)] => rewrite len_cons
         | |- context [len []] => rewrite len_nil
         end;
  repeat match goal with
         | |- context [len ?b] =>
             lazymatch goal with
             | _ : 0 <= len b |- _ => fail
             | _ => pose proof (len_nonneg b)
             end
         end;
  lia.

Lemma index_0 (v : byte) (b : list byte) : index (v :: b) 0 = Ret v.
Proof.
  unfold index.
  replace ((0 <=? 0) && (0 <? len (v :: b))) with true by (symmetry; in_range).
  reflexivity.
Qed.

Lemma index_1 (v0 v1 : byte) (b : list byte) : index (v0 :: v1 :: b) 1 = Ret v1.
Proof.
  unfold index.
  replace ((0 <=? 1) && (1 <? len (v0 :: v1 :: b))) with true
    by (symmetry; in_range).
  reflexivity.
Qed.

Lemma slice_from_spec (b : list byte) (lo : Z) :
  0 <= lo <= len b -> slice_from b lo = Ret (skipn (Z.to_nat lo) b).
Proof.
  intros H. unfold slice_from.
  replace ((0 <=? lo) && (lo <=? len b)) with true by (symmetry; lia).
  reflexivity.
Qed.

Lemma slice_to_spec (b : list byte) (hi : Z) :
  0 <= hi <= len b -> slice_to b hi = Ret (firstn (Z.to_nat hi) b).
Proof.
  intros H. unfold slice_to.
  replace ((0 <=? hi) && (hi <=? len b)) with true by (symmetry; lia).
  reflexivity.
Qed.

Lemma Uint16_cons (hi lo : byte) (b : list byte) :
  Uint16 (hi :: lo :: b) = Ret (be16 hi lo).
Proof.
  pose proof (u8_range hi). pose proof (u8_range lo).
  unfold Uint16. rewrite index_1, index_0. cbn [exec_bind].
  rewrite (uint16_small (u8 lo)), (uint16_small (u8 hi)) by lia.
  rewrite Z.shiftl_mul_pow2 by lia.
  rewrite uint16_small by lia.
  replace (u8 hi * 2 ^ 8) with (Z.shiftl (u8 hi) 8)
    by (rewrite Z.shiftl_mul_pow2; lia).
  rewrite Z.lor_comm, lor_shiftl_8 by lia. reflexivity.
Qed.

(** ** The parsers, case by case *)

Lemma at_least_5 (b : list byte) :
  5 <= len b ->
  exists typ v1 v0 l1 l0 payload, b = typ :: v1 :: v0 :: l1 :: l0 :: payload.
Proof.
  intros H.
  destruct b as [| typ [| v1 [| v0 [| l1 [| l0 payload]]]]];
    try (exfalso; revert H; in_range).
  now exists typ, v1, v0, l1, l0, payload.
Qed.

Lemma at_least_4 (b : list byte) :
  4 <= len b ->
  exists typ b2 b1 b0 body, b = typ :: b2 :: b1 :: b0 :: body.
Proof.
  intros H.
  destruct b as [| typ [| b2 [| b1 [| b0 body]]]];
    try (exfalso; revert H; in_range).
  now exists typ, b2, b1, b0, body.
Qed.

Lemma handshakeRecord_short (b : list byte) :
  len b < 5 -> handshakeRecord b = Ret ([], Some io_ErrUnexpectedEOF).
Proof.
  intros H. unfold handshakeRecord, Record.headerSize.
  replace (len b <? 1 + 2 + 2) with true by (symmetry; lia).
  reflexivity.
Qed.

(** On five bytes or more every access of [handshakeRecord] is in range,
    and what is left is the chain of checks on the header fields. *)
Lemma handshakeRecord_header (typ v1 v0 l1 l0 : byte) (payload : list byte) :
  handshakeRecord (typ :: v1 :: v0 :: l1 :: l0 :: payload) =
  if negb (u8 typ =? 22) then
    if u8 typ =? 128 then Ret ([], Some errSSLv2)
    else Ret ([], Some errNotHandshake)
  else if negb (u8 v1 =? 3) then Ret ([], Some (errVersion (be16 v1 v0)))
  else if be16 l1 l0 >? 16384 then Ret ([], Some errRecordLength)
  else if be16 l1 l0 >? len payload then Ret ([], Some io_ErrUnexpectedEOF)
  else Ret (firstn (Z.to_nat (be16 l1 l0)) payload, None).
Proof.
  unfold handshakeRecord, Record.headerSize, Record.typeHandshake,
    Record.majorVersion, Record.maxRecordLength.
  replace (len (typ :: v1 :: v0 :: l1 :: l0 :: payload) <? 1 + 2 + 2)
    with false by (symmetry; in_range).
  rewrite index_0. cbn [exec_bind].
  rewrite slice_from_spec by in_range.
  change (skipn (Z.to_nat 1) (typ :: v1 :: v0 :: l1 :: l0 :: payload))
    with (v1 :: v0 :: l1 :: l0 :: payload).
  cbn [exec_bind]. rewrite Uint16_cons. cbn [exec_bind].
  rewrite slice_from_spec by in_range.
  change (skipn (Z.to_nat 3) (typ :: v1 :: v0 :: l1 :: l0 :: payload))
    with (l1 :: l0 :: payload).
  cbn [exec_bind]. rewrite Uint16_cons. cbn [exec_bind].
  rewrite slice_from_spec by in_range.
  change (skipn (Z.to_nat (1 + 2 + 2)) (typ :: v1 :: v0 :: l1 :: l0 :: payload))
    with payload.
  cbn [exec_bind]. rewrite shiftr_be16.
  pose proof (be16_range l1 l0) as Hl.
  rewrite (int_small (be16 l1 l0)) by lia.
  destruct (negb (u8 typ =? 22)); [reflexivity |].
  destruct (negb (u8 v1 =? 3)); [reflexivity |].
  destruct (be16 l1 l0 >? 16384); [reflexivity |].
  destruct (be16 l1 l0 >? len payload) eqn:E; [reflexivity |].
  rewrite slice_to_spec by lia. reflexivity.
Qed.

Lemma parseHello_short (b : list byte) :
  len b < 4 -> parseHello b = Ret ([], Some errHelloShort).
Proof.
  intros H. unfold parseHello, Hello.headerSize.
  replace (len b <? 1 + 3) with true by (symmetry; lia).
  reflexivity.
Qed.

Lemma parseHello_header (typ b2 b1 b0 : byte) (body : list byte) :
  parseHello (typ :: b2 :: b1 :: b0 :: body) =
  if negb (u8 typ =? 1) then Ret ([], Some (errNotClientHello (u8 typ)))
  else if be24 b2 b1 b0 >? len body then Ret ([], Some errHelloLength)
  else Ret (firstn (Z.to_nat (be24 b2 b1 b0)) body, None).
Proof.
  unfold parseHello, Hello.headerSize, Hello.typeClientHello.
  replace (len (typ :: b2 :: b1 :: b0 :: body) <? 1 + 3)
    with false by (symmetry; in_range).
  rewrite index_0. cbn [exec_bind].
  unfold slice.
  replace ((0 <=? 1) && (1 <=? 4) && (4 <=? len (typ :: b2 :: b1 :: b0 :: body)))
    with true by (symmetry; in_range).
  change (firstn (Z.to_nat (4 - 1)) (skipn (Z.to_nat 1) (typ :: b2 :: b1 :: b0 :: body)))
    with [b2; b1; b0].
  cbn [exec_bind]. rewrite be_accumulate_3.
  rewrite slice_from_spec by in_range.
  change (skipn (Z.to_nat (1 + 3)) (typ :: b2 :: b1 :: b0 :: body)) with body.
  cbn [exec_bind].
  pose proof (be24_range b2 b1 b0) as Hl.
  rewrite (int_small (be24 b2 b1 b0)) by lia.
  destruct (negb (u8 typ =? 1)); [reflexivity |].
  destruct (be24 b2 b1 b0 >? len body) eqn:E; [reflexivity |].
  rewrite slice_to_spec by lia. reflexivity.
Qed.

(** Neither parser panics. *)
Lemma handshakeRecord_returns (b : list byte) :
  exists r, handshakeRecord b = Ret r.
Proof.
  destruct (Z.lt_ge_cases (len b) 5) as [H | H].
  - rewrite handshakeRecord_short by assumption. eauto.
  - destruct (at_least_5 b H) as (typ & v1 & v0 & l1 & l0 & payload & ->).
    rewrite handshakeRecord_header.
    repeat match goal with
           | |- context [if ?c then _ else _] => destruct c
           end; eauto.
Qed.

Lemma parseHello_returns (b : list byte) :
  exists r, parseHello b = Ret r.
Proof.
  destruct (Z.lt_ge_cases (len b) 4) as [H | H].
  - rewrite parseHello_short by assumption. eauto.
  - destruct (at_least_4 b H) as (typ & b2 & b1 & b0 & body & ->).
    rewrite parseHello_header.
    repeat match goal with
           | |- context [if ?c then _ else _] => destruct c
           end; eauto.
Qed.

(** Closed side conditions, by evaluation. *)
Ltac by_eval :=
  first [ reflexivity | vm_compute; first [ reflexivity | discriminate ] ].

(** ** The record parser *)

Lemma handshakeRecord_outcome_inv (b : list byte) :
  match run_outcome (handshakeRecord b) with
  | Ret (Complete p) =>
      exists typ v1 v0 l1 l0 payload,
        b = typ :: v1 :: v0 :: l1 :: l0 :: payload /\
        u8 typ = 22 /\ u8 v1 = 3 /\ be16 l1 l0 <= 16384 /\
        be16 l1 l0 <= len payload /\
        p = firstn (Z.to_nat (be16 l1 l0)) payload
  | Ret NeedMoreData =>
      len b < 5 \/
      exists typ v1 v0 l1 l0 payload,
        b = typ :: v1 :: v0 :: l1 :: l0 :: payload /\
        u8 typ = 22 /\ u8 v1 = 3 /\ be16 l1 l0 <= 16384 /\
        len payload < be16 l1 l0
  | Ret (Invalid _) =>
      exists typ v1 v0 l1 l0 payload,
        b = typ :: v1 :: v0 :: l1 :: l0 :: payload /\
        (u8 typ <> 22 \/ u8 v1 <> 3 \/ 16384 < be16 l1 l0)
  | Panic _ => False
  end.
Proof.
  destruct (Z.lt_ge_cases (len b) 5) as [H | H].
  { rewrite handshakeRecord_short by assumption. now left. }
  destruct (at_least_5 b H) as (typ & v1 & v0 & l1 & l0 & payload & ->).
  rewrite handshakeRecord_header.
  destruct (u8 typ =? 22) eqn:Et; cbn [negb].
  2:{ apply Z.eqb_neq in Et.
      destruct (u8 typ =? 128); cbn; exists typ, v1, v0, l1, l0, payload; auto. }
  apply Z.eqb_eq in Et.
  destruct (u8 v1 =? 3) eqn:Ev; cbn [negb].
  2:{ apply Z.eqb_neq in Ev. cbn. exists typ, v1, v0, l1, l0, payload; auto. }
  apply Z.eqb_eq in Ev.
  destruct (be16 l1 l0 >? 16384) eqn:El.
  { cbn. exists typ, v1, v0, l1, l0, payload. split; [reflexivity |]. lia. }
  destruct (be16 l1 l0 >? len payload) eqn:Ep; cbn.
  - right. exists typ, v1, v0, l1, l0, payload. repeat split; auto; lia.
  - exists typ, v1, v0, l1, l0, payload. repeat split; auto; lia.
Qed.

(** C3. A slice of fewer than 5 bytes needs more data; with a valid
    header (type 22, major version 3, declared length at most 16384) the
    parser needs more data while fewer payload bytes than declared are
    present, and otherwise, the payload being all there, completes with
    exactly the declared number of bytes that follow the 5-byte header.
    The last part says that these are the only ways to those two
    outcomes; a header that is not valid gives neither. *)
Theorem handshakeRecord_spec :
  (forall b, len b < 5 ->
     run_outcome (handshakeRecord b) = Ret NeedMoreData) /\
  (forall typ v1 v0 l1 l0 payload,
     u8 typ = 22 -> u8 v1 = 3 -> be16 l1 l0 <= 16384 ->
     len payload < be16 l1 l0 ->
     run_outcome (handshakeRecord (typ :: v1 :: v0 :: l1 :: l0 :: payload))
     = Ret NeedMoreData) /\
  (forall typ v1 v0 l1 l0 payload,
     u8 typ = 22 -> u8 v1 = 3 -> be16 l1 l0 <= 16384 ->
     be16 l1 l0 <= len payload ->
     run_outcome (handshakeRecord (typ :: v1 :: v0 :: l1 :: l0 :: payload))
     = Ret (Complete (firstn (Z.to_nat (be16 l1 l0)) payload)) /\
     len (firstn (Z.to_nat (be16 l1 l0)) payload) = be16 l1 l0) /\
  (forall b,
     match run_outcome (handshakeRecord b) with
     | Ret (Complete p) =>
         exists typ v1 v0 l1 l0 payload,
           b = typ :: v1 :: v0 :: l1 :: l0 :: payload /\
           u8 typ = 22 /\ u8 v1 = 3 /\ be16 l1 l0 <= 16384 /\
           be16 l1 l0 <= len payload /\
           p = firstn (Z.to_nat (be16 l1 l0)) payload
     | Ret NeedMoreData =>
         len b < 5 \/
         exists typ v1 v0 l1 l0 payload,
           b = typ :: v1 :: v0 :: l1 :: l0 :: payload /\
           u8 typ = 22 /\ u8 v1 = 3 /\ be16 l1 l0 <= 16384 /\
           len payload < be16 l1 l0
     | Ret (Invalid _) =>
         exists typ v1 v0 l1 l0 payload,
           b = typ :: v1 :: v0 :: l1 :: l0 :: payload /\
           (u8 typ <> 22 \/ u8 v1 <> 3 \/ 16384 < be16 l1 l0)
     | Panic _ => False
     end).
Proof.
  split; [| split; [| split]].
  - intros b H. now rewrite handshakeRecord_short.
  - intros typ v1 v0 l1 l0 payload Ht Hv Hmax Hshort.
    rewrite handshakeRecord_header, Ht, Hv. cbn [Z.eqb Pos.eqb negb].
    replace (be16 l1 l0 >? 16384) with false by (symmetry; lia).
    replace (be16 l1 l0 >? len payload) with true by (symmetry; lia).
    reflexivity.
  - intros typ v1 v0 l1 l0 payload Ht Hv Hmax Hfull.
    rewrite handshakeRecord_header, Ht, Hv. cbn [Z.eqb Pos.eqb negb].
    replace (be16 l1 l0 >? 16384) with false by (symmetry; lia).
    replace (be16 l1 l0 >? len payload) with false by (symmetry; lia).
    split; [reflexivity |].
    pose proof (be16_range l1 l0).
    unfold len in *. rewrite length_firstn. lia.
  - apply handshakeRecord_outcome_inv.
Qed.

Lemma handshakeRecord_spec_witness :
  run_outcome (handshakeRecord [x16; x03; x01]) = Ret NeedMoreData /\
  run_outcome (handshakeRecord [x16; x03; x01; x00; x04; x01; x00])
  = Ret NeedMoreData /\
  run_outcome (handshakeRecord hello_record)
  = Ret (Complete [x01; x00; x00; x00]).
Proof.
  destruct handshakeRecord_spec as (Hshort & Hwait & Hfull & _).
  split; [| split].
  - apply Hshort. by_eval.
  - apply Hwait; by_eval.
  - apply (Hfull x16 x03 x01 x00 x04 [x01; x00; x00; x00]); by_eval.
Defined.

Lemma u8_eqb_false (v c : byte) : v <> c -> (u8 v =? u8 c) = false.
Proof.
  intros H. apply Z.eqb_neq. intros E. apply H. now apply u8_inj.
Qed.

(** C4, as the source has it.  Once the 5-byte header is present, a first
    byte 0x80 gives the SSLv2 error and a nil slice whatever the bytes
    after it, and a first byte that is neither 22 nor 0x80 gives the
    not-a-handshake error; on fewer than 5 bytes the parser asks for more
    data whatever the first byte is. *)
Theorem handshakeRecord_first_byte :
  forall typ v1 v0 l1 l0 payload,
    (typ = x80 ->
     handshakeRecord (typ :: v1 :: v0 :: l1 :: l0 :: payload)
     = Ret ([], Some errSSLv2)) /\
    (typ <> x16 -> typ <> x80 ->
     handshakeRecord (typ :: v1 :: v0 :: l1 :: l0 :: payload)
     = Ret ([], Some errNotHandshake)) /\
    (forall b, len b < 5 ->
     handshakeRecord b = Ret ([], Some io_ErrUnexpectedEOF)).
Proof.
  intros typ v1 v0 l1 l0 payload. split; [| split].
  - intros ->. rewrite handshakeRecord_header. reflexivity.
  - intros H16 H80. rewrite handshakeRecord_header.
    change 22 with (u8 x16). change 128 with (u8 x80).
    now rewrite !u8_eqb_false.
  - apply handshakeRecord_short.
Qed.

Lemma handshakeRecord_first_byte_witness :
  handshakeRecord [x80; xff; xff; xff; xff; x00] = Ret ([], Some errSSLv2) /\
  handshakeRecord [x17; x03; x03; x00; x01; x00] = Ret ([], Some errNotHandshake) /\
  handshakeRecord [x80; x2e] = Ret ([], Some io_ErrUnexpectedEOF).
Proof.
  split; [| split].
  - apply (handshakeRecord_first_byte x80 xff xff xff xff [x00]). reflexivity.
  - apply (handshakeRecord_first_byte x17 x03 x03 x00 x01 [x00]); discriminate.
  - apply (handshakeRecord_first_byte x80 x00 x00 x00 x00 []). by_eval.
Defined.

(** C4 as stated fails on inputs shorter than the header: a lone 0x80,
    and a short input that starts with an application-data byte, both
    ask for more data instead of reporting an error. *)
Lemma short_input_waits :
  handshakeRecord [x80] = Ret ([], Some io_ErrUnexpectedEOF) /\
  handshakeRecord [x80] <> Ret ([], Some errSSLv2) /\
  handshakeRecord [x17; x03; x03] = Ret ([], Some io_ErrUnexpectedEOF) /\
  handshakeRecord [x17; x03; x03] <> Ret ([], Some errNotHandshake).
Proof.
  repeat split; try reflexivity; vm_compute; discriminate.
Qed.

(** C5. With a complete header of type 22 and major version 3, a declared
    length above 16384 is refused at once, however few payload bytes are
    there. *)
Theorem handshakeRecord_too_large :
  forall typ v1 v0 l1 l0 payload,
    u8 typ = 22 -> u8 v1 = 3 -> 16384 < be16 l1 l0 ->
    handshakeRecord (typ :: v1 :: v0 :: l1 :: l0 :: payload)
    = Ret ([], Some errRecordLength) /\
    run_outcome (handshakeRecord (typ :: v1 :: v0 :: l1 :: l0 :: payload))
    = Ret (Invalid errRecordLength).
Proof.
  intros typ v1 v0 l1 l0 payload Ht Hv Hbig.
  rewrite handshakeRecord_header, Ht, Hv. cbn [Z.eqb Pos.eqb negb].
  replace (be16 l1 l0 >? 16384) with true by (symmetry; lia).
  split; reflexivity.
Qed.

Lemma handshakeRecord_too_large_witness :
  be16 x40 x01 = 16385 /\
  handshakeRecord [x16; x03; x01; x40; x01] = Ret ([], Some errRecordLength) /\
  run_outcome (handshakeRecord [x16; x03; x01; x40; x01])
  = Ret (Invalid errRecordLength).
Proof.
  split; [reflexivity |].
  apply (handshakeRecord_too_large x16 x03 x01 x40 x01 []); by_eval.
Defined.

(** ** The handshake parser *)

(** C7. On a payload of at least 4 bytes whose type byte is 1 and whose
    declared body length fits in what follows the header, [parseHello]
    completes with exactly the declared number of bytes and drops what
    comes after them; the record 16 03 01 00 04 with payload 01 00 00 00
    gives an empty body. *)
Theorem parseHello_complete :
  (forall typ b2 b1 b0 rest,
     u8 typ = 1 -> be24 b2 b1 b0 <= len rest ->
     run_outcome (parseHello (typ :: b2 :: b1 :: b0 :: rest))
     = Ret (Complete (firstn (Z.to_nat (be24 b2 b1 b0)) rest)) /\
     len (firstn (Z.to_nat (be24 b2 b1 b0)) rest) = be24 b2 b1 b0) /\
  (forall typ b2 b1 b0 body trailing,
     u8 typ = 1 -> len body = be24 b2 b1 b0 ->
     parseHello (typ :: b2 :: b1 :: b0 :: body ++ trailing) = Ret (body, None)) /\
  (handshakeRecord [x16; x03; x01; x00; x04; x01; x00; x00; x00]
   = Ret ([x01; x00; x00; x00], None) /\
   parseHello [x01; x00; x00; x00] = Ret ([], None)).
Proof.
  split; [| split].
  - intros typ b2 b1 b0 rest Ht Hfit.
    rewrite parseHello_header, Ht. cbn [Z.eqb Pos.eqb negb].
    replace (be24 b2 b1 b0 >? len rest) with false by (symmetry; lia).
    split; [reflexivity |].
    pose proof (be24_range b2 b1 b0).
    unfold len in *. rewrite length_firstn. lia.
  - intros typ b2 b1 b0 body trailing Ht Hlen.
    rewrite parseHello_header, Ht. cbn [Z.eqb Pos.eqb negb].
    pose proof (len_nonneg trailing).
    replace (be24 b2 b1 b0 >? len (body ++ trailing)) with false
      by (symmetry; rewrite len_app; lia).
    rewrite <- Hlen. unfold len. rewrite Nat2Z.id.
    rewrite firstn_app, Nat.sub_diag, firstn_all. cbn [firstn].
    now rewrite app_nil_r.
  - split; reflexivity.
Qed.

Lemma parseHello_complete_witness :
  run_outcome (parseHello [x01; x00; x00; x02; xaa; xbb; xcc])
  = Ret (Complete [xaa; xbb]) /\
  parseHello ([x01; x00; x00; x02] ++ [xaa; xbb] ++ [xcc]) = Ret ([xaa; xbb], None).
Proof.
  destruct parseHello_complete as (Hfit & Hcut & _).
  split.
  - apply (Hfit x01 x00 x00 x02 [xaa; xbb; xcc]); by_eval.
  - apply (Hcut x01 x00 x00 x02 [xaa; xbb] [xcc]); by_eval.
Defined.

(** ** Totality *)

(** C10. Both parsers return on every input, without a panic: every
    index and slice expression is in range when it is reached.  What
    they return is a sub-slice of the input with a nil error, or a nil
    slice with one of the errors the function is written to return. *)
Theorem parsers_total :
  forall b,
    (exists r, handshakeRecord b = Ret r /\
       ((exists p rest hdr, r = (p, None) /\ b = hdr ++ p ++ rest /\ len hdr = 5)
        \/ (exists e, r = ([], Some e) /\ Record_error e))) /\
    (exists r, parseHello b = Ret r /\
       ((exists p rest hdr, r = (p, None) /\ b = hdr ++ p ++ rest /\ len hdr = 4)
        \/ (exists e, r = ([], Some e) /\ Hello_error e))).
Proof.
  intros b. split.
  - destruct (Z.lt_ge_cases (len b) 5) as [H | H].
    + rewrite handshakeRecord_short by assumption.
      eexists; split; [reflexivity | right].
      eexists; split; [reflexivity | unfold Record_error; auto].
    + destruct (at_least_5 b H) as (typ & v1 & v0 & l1 & l0 & payload & ->).
      rewrite handshakeRecord_header.
      repeat match goal with
             | |- context [if ?c then _ else _] => destruct c
             end;
        eexists; (split; [reflexivity |]);
        try (right; eexists; split; [reflexivity |];
             unfold Record_error; eauto 8; fail).
      left. exists (firstn (Z.to_nat (be16 l1 l0)) payload),
        (skipn (Z.to_nat (be16 l1 l0)) payload), [typ; v1; v0; l1; l0].
      split; [reflexivity | split; [| reflexivity]].
      now rewrite firstn_skipn.
  - destruct (Z.lt_ge_cases (len b) 4) as [H | H].
    + rewrite parseHello_short by assumption.
      eexists; split; [reflexivity | right].
      eexists; split; [reflexivity | unfold Hello_error; auto].
    + destruct (at_least_4 b H) as (typ & b2 & b1 & b0 & body & ->).
      rewrite parseHello_header.
      repeat match goal with
             | |- context [if ?c then _ else _] => destruct c
             end;
        eexists; (split; [reflexivity |]);
        try (right; eexists; split; [reflexivity |];
             unfold Hello_error; eauto 8; fail).
      left. exists (firstn (Z.to_nat (be24 b2 b1 b0)) body),
        (skipn (Z.to_nat (be24 b2 b1 b0)) body), [typ; b2; b1; b0].
      split; [reflexivity | split; [| reflexivity]].
      now rewrite firstn_skipn.
Qed.

(** ** One call on the connection *)

Ltac run_conn :=
  unfold Read, Close, release_buf, Conn_Read, Conn_Close, fn, bind, ret, emit,
    get_doneCH, get_buf, set_buf, set_doneCH, bufferPool_Put, bufferPool_Get,
    lift;
  cbn [ch doneCH buf trace bufferPool err filled fst snd orb contents addr
       Buffer_Bytes Buffer_Write Buffer_Reset is_ErrUnexpectedEOF].

Lemma Read_passthrough (r : ReadResult) (w : World) :
  doneCH (ch w) = true \/ is_transport_failure (err r) = true ->
  Read r w = Ret (r, logged w [Ev_Conn_Read r]).
Proof.
  intros H. apply orb_true_iff in H. run_conn. now rewrite H.
Qed.

Lemma Read_wait (r : ReadResult) (w : World) (hb : list byte) :
  doneCH (ch w) = false -> is_transport_failure (err r) = false ->
  handshakeRecord (seen w r) = Ret (hb, Some io_ErrUnexpectedEOF) ->
  Read r w = Ret (r, waiting w r).
Proof.
  destruct w as [[cur d] pool tr]. unfold seen, waiting. cbn [ch doneCH buf].
  intros -> Hf Hp. run_conn. rewrite Hf.
  destruct cur as [bf |]; run_conn; rewrite Hp; run_conn; [reflexivity |].
  destruct (Pool_Get pool) as [bf p]. run_conn.
  unfold Buffer_Grow. cbn. now rewrite <- app_assoc.
Qed.

Lemma Read_done (r : ReadResult) (w : World)
    (p : list byte) (e : option error) (hb : list byte) (herr : option error) :
  doneCH (ch w) = false -> is_transport_failure (err r) = false ->
  handshakeRecord (seen w r) = Ret (p, e) ->
  is_ErrUnexpectedEOF e = false ->
  match e with None => parseHello p | Some _ => Ret (p, e) end = Ret (hb, herr) ->
  Read r w = Ret (r, finished w r hb herr).
Proof.
  destruct w as [[cur d] pool tr]. unfold seen, finished. cbn [ch doneCH buf].
  intros -> Hf Hp He Hh. run_conn. rewrite Hf.
  destruct cur as [bf |]; run_conn; rewrite Hp; run_conn; rewrite He;
    (destruct e as [e' |]; [injection Hh as <- <- | rewrite Hh]); run_conn;
    now rewrite <- ?app_assoc.
Qed.

Lemma Close_closed (e : option error) (w : World) :
  Close e w = Ret (e, closed w e).
Proof.
  destruct w as [[cur d] pool tr]. unfold closed. run_conn.
  destruct cur as [bf |]; run_conn; now rewrite <- ?app_assoc.
Qed.

(** A read returns what the transport returned, and leaves the world in
    one of three shapes. *)
Lemma Read_cases (r : ReadResult) (w : World) :
  exists w', Read r w = Ret (r, w') /\
    (((doneCH (ch w) = true \/ is_transport_failure (err r) = true) /\
      w' = logged w [Ev_Conn_Read r])
     \/ (doneCH (ch w) = false /\ w' = waiting w r)
     \/ (doneCH (ch w) = false /\ exists hb herr, w' = finished w r hb herr)).
Proof.
  destruct (doneCH (ch w)) eqn:Hd.
  { eexists. split; [apply Read_passthrough; auto | auto]. }
  destruct (is_transport_failure (err r)) eqn:Hf.
  { eexists. split; [apply Read_passthrough; auto | auto]. }
  destruct (handshakeRecord_returns (seen w r)) as [[p e] Hp].
  destruct (is_ErrUnexpectedEOF e) eqn:He.
  - destruct e as [[] |]; try discriminate.
    eexists. split; [eapply Read_wait; eauto | auto].
  - destruct e as [e' |].
    + eexists. split; [eapply Read_done; eauto | eauto 6].
    + destruct (parseHello_returns p) as [[hb herr] Hh].
      eexists. split; [eapply Read_done; eauto | eauto 6].
Qed.

(** ** Sequences of calls *)

Lemma count_fn_app (t t' : list Event) :
  count_fn (t ++ t') = (count_fn t + count_fn t')%nat.
Proof.
  induction t as [| e t IH]; [reflexivity |].
  destruct e; cbn [app count_fn]; rewrite IH; reflexivity.
Qed.

Lemma Step_refl (w : World) : Step w w.
Proof. unfold Step. auto. Qed.

Lemma Step_trans (w1 w2 w3 : World) : Step w1 w2 -> Step w2 w3 -> Step w1 w3.
Proof.
  unfold Step. intros (Ha & Hb & Hc) (Ha' & Hb' & Hc').
  repeat split; [auto | lia | auto].
Qed.

Lemma Step_logged (w : World) (e : Event) :
  match e with Ev_fn _ _ => False | _ => True end -> Step w (logged w [e]).
Proof.
  intros He. unfold Step, logged. cbn [ch trace].
  repeat split; auto.
  rewrite count_fn_app. destruct e; cbn [count_fn]; try contradiction; lia.
Qed.

Lemma Step_waiting (w : World) (r : ReadResult) :
  doneCH (ch w) = false -> Step w (waiting w r).
Proof.
  intros Hd. unfold Step, waiting. rewrite Hd.
  destruct (buf (ch w)) as [bf |].
  - cbn [ch trace doneCH buf]. rewrite count_fn_app. cbn.
    repeat split; try discriminate. lia.
  - destruct (Pool_Get (bufferPool w)) as [bf p].
    cbn [ch trace doneCH buf]. rewrite count_fn_app. cbn.
    repeat split; try discriminate. lia.
Qed.

Lemma Step_finished (w : World) (r : ReadResult)
    (hb : list byte) (herr : option error) :
  doneCH (ch w) = false -> Step w (finished w r hb herr).
Proof.
  intros Hd. unfold Step, finished. rewrite Hd.
  cbn [ch trace doneCH buf]. rewrite count_fn_app.
  destruct (buf (ch w)); cbn; repeat split; auto; lia.
Qed.

Lemma Step_closed (w : World) (e : option error) : Step w (closed w e).
Proof.
  unfold Step, closed. cbn [ch trace doneCH buf]. rewrite count_fn_app.
  destruct (buf (ch w)); cbn; repeat split; auto; lia.
Qed.

Lemma call_step (c : Call) (w : World) :
  exists w', call c w = Ret (answer c, w') /\ Step w w' /\
    (doneCH (ch w) = true -> buf (ch w) = None -> w' = logged w [event_of c]).
Proof.
  destruct c as [r | e]; cbn [call answer event_of]; unfold bind, ret.
  - destruct (Read_cases r w) as (w' & -> & Hw'). exists w'.
    split; [reflexivity |].
    destruct Hw' as [[_ ->] | [[Hd ->] | [Hd (hb & herr & ->)]]].
    + split; [now apply Step_logged | reflexivity].
    + split; [now apply Step_waiting | congruence].
    + split; [now apply Step_finished | congruence].
  - rewrite Close_closed. exists (closed w e).
    split; [reflexivity | split; [apply Step_closed |]].
    intros _ Hb. destruct w as [[cur d] pool tr]. cbn [ch buf] in Hb. subst cur.
    reflexivity.
Qed.

Lemma logged_logged (w : World) (es es' : list Event) :
  logged (logged w es) es' = logged w (es ++ es').
Proof. unfold logged. cbn [ch bufferPool trace]. now rewrite app_assoc. Qed.

Lemma run_steps (cs : list Call) (w : World) :
  exists w', run cs w = Ret (map answer cs, w') /\ Step w w' /\
    (doneCH (ch w) = true -> buf (ch w) = None ->
     w' = logged w (map event_of cs)).
Proof.
  revert w. induction cs as [| c cs IH]; intros w.
  - exists w. cbn [run map]. unfold ret.
    split; [reflexivity | split; [apply Step_refl |]].
    intros _ _. unfold logged. rewrite app_nil_r. now destruct w.
  - destruct (call_step c w) as (w1 & Hc & Hs1 & Hp1).
    destruct (IH w1) as (w2 & Hr & Hs2 & Hp2).
    exists w2. cbn [run map]. unfold bind, ret. rewrite Hc, Hr.
    split; [reflexivity | split; [eapply Step_trans; eauto |]].
    intros Hd Hb. specialize (Hp1 Hd Hb). subst w1.
    rewrite Hp2 by assumption. apply logged_logged.
Qed.

Lemma bytes_of_reads (chunks : list (list byte)) :
  List.concat (map bytes_of (map answer (reads chunks))) = List.concat chunks.
Proof.
  induction chunks as [| c chunks IH]; [reflexivity |].
  cbn [reads map answer bytes_of filled List.concat].
  unfold reads in IH. now rewrite IH.
Qed.

(** ** The connection wrapper *)

(** C2. Whatever the state of the connection, a read returns the bytes
    and the error of the underlying read; over any sequence of calls the
    replies are the transport's answers one for one, and when a stream
    arrives chopped into pieces the bytes returned, put end to end, are
    the stream. *)
Theorem Read_transparent :
  (forall r w, exists w', Read r w = Ret (r, w')) /\
  (forall cs w, exists w', run cs w = Ret (map answer cs, w')) /\
  (forall chunks w, exists rs w',
     run (reads chunks) w = Ret (rs, w') /\
     rs = map (fun c => Reply_Read (delivered c)) chunks /\
     List.concat (map bytes_of rs) = List.concat chunks).
Proof.
  split; [| split].
  - intros r w. destruct (Read_cases r w) as (w' & H & _). eauto.
  - intros cs w. destruct (run_steps cs w) as (w' & H & _). eauto.
  - intros chunks w. destruct (run_steps (reads chunks) w) as (w' & H & _).
    exists (map answer (reads chunks)), w'.
    split; [exact H | split; [| apply bytes_of_reads]].
    unfold reads. rewrite map_map. reflexivity.
Qed.


(** C6. A payload of fewer than 4 bytes is refused by [parseHello] with
    the too-short error, a final outcome and not a request for more
    data; a read that completes a record with such a payload therefore
    ends sniffing, calling the observer with that error and no bytes and
    giving the buffer back. *)
Theorem parseHello_too_short :
  (forall b, len b < 4 ->
     parseHello b = Ret ([], Some errHelloShort) /\
     run_outcome (parseHello b) = Ret (Invalid errHelloShort) /\
     run_outcome (parseHello b) <> Ret NeedMoreData) /\
  (forall r w p,
     doneCH (ch w) = false -> is_transport_failure (err r) = false ->
     handshakeRecord (seen w r) = Ret (p, None) -> len p < 4 ->
     exists w',
       Read r w = Ret (r, w') /\
       w' = finished w r [] (Some errHelloShort) /\
       doneCH (ch w') = true /\ buf (ch w') = None /\
       exists released,
         trace w' = trace w ++
                    Ev_Conn_Read r :: Ev_fn [] (Some errHelloShort) :: released).
Proof.
  split.
  - intros b H. rewrite parseHello_short by assumption.
    repeat split. discriminate.
  - intros r w p Hd Hf Hp Hlen. eexists.
    split; [| split; [reflexivity |]].
    + eapply Read_done with (p := p) (e := None); auto.
      now apply parseHello_short.
    + unfold finished. cbn [ch doneCH buf trace]. eauto.
Qed.

Lemma parseHello_too_short_witness :
  parseHello [x01; x00] = Ret ([], Some errHelloShort) /\
  exists w',
    Read (delivered [x16; x03; x01; x00; x02; x01; x00]) (ClientHelloConn pool0)
    = Ret (delivered [x16; x03; x01; x00; x02; x01; x00], w') /\
    trace w' = [Ev_Conn_Read (delivered [x16; x03; x01; x00; x02; x01; x00]);
                Ev_fn [] (Some errHelloShort)].
Proof.
  destruct parseHello_too_short as (Hshort & Hread).
  split.
  - apply (Hshort [x01; x00]). by_eval.
  - destruct (Hread (delivered [x16; x03; x01; x00; x02; x01; x00])
                (ClientHelloConn pool0) [x01; x00]
                eq_refl eq_refl eq_refl eq_refl)
      as (w' & HR & -> & _).
    eexists. split; [exact HR | reflexivity].
Defined.

Lemma run_from_start (pool : Pool) (cs : list Call) :
  exists w',
    run cs (ClientHelloConn pool) = Ret (map answer cs, w') /\
    count_fn (trace w') = b2n (doneCH (ch w')) /\
    (doneCH (ch w') = true -> buf (ch w') = None).
Proof.
  destruct (run_steps cs (ClientHelloConn pool)) as (w' & Hr & (_ & Hn & Hb) & _).
  exists w'. cbn [ClientHelloConn ch trace doneCH buf count_fn b2n] in Hn, Hb.
  split; [exact Hr | split; [lia | auto]].
Qed.

(** C8. On a connection made by [ClientHelloConn] the observer is called
    at most once, whatever calls follow, and it has been called exactly
    when the done flag is set.  From then on a call does nothing but
    delegate: every read returns what the transport returns, the state of
    the connection and the pool stay as they are, and the only events are
    the calls on the underlying connection. *)
Theorem fn_at_most_once :
  (forall pool cs, exists w',
     run cs (ClientHelloConn pool) = Ret (map answer cs, w') /\
     count_fn (trace w') = b2n (doneCH (ch w')) /\
     (count_fn (trace w') <= 1)%nat) /\
  (forall pool cs w1 cs',
     run cs (ClientHelloConn pool) = Ret (map answer cs, w1) ->
     count_fn (trace w1) = 1%nat ->
     run cs' w1 = Ret (map answer cs', logged w1 (map event_of cs'))) /\
  (forall w r,
     doneCH (ch w) = true ->
     Read r w = Ret (r, logged w [Ev_Conn_Read r])).
Proof.
  split; [| split].
  - intros pool cs. destruct (run_from_start pool cs) as (w' & Hr & Hn & _).
    exists w'. split; [exact Hr | split; [exact Hn |]].
    rewrite Hn. destruct (doneCH (ch w')); cbn [b2n]; lia.
  - intros pool cs w1 cs' Hr Hfired.
    destruct (run_from_start pool cs) as (w' & Hr' & Hn & Hb).
    rewrite Hr in Hr'. injection Hr' as <-.
    assert (doneCH (ch w1) = true) as Hd.
    { destruct (doneCH (ch w1)); [reflexivity |]. cbn [b2n] in Hn. lia. }
    destruct (run_steps cs' w1) as (w2 & Hr2 & _ & Hp).
    rewrite Hr2, (Hp Hd (Hb Hd)). reflexivity.
  - intros w r Hd. apply Read_passthrough. auto.
Qed.

Lemma fn_at_most_once_witness :
  exists w1,
    run [Call_Read (delivered hello_record)] (ClientHelloConn pool0)
    = Ret ([Reply_Read (delivered hello_record)], w1) /\
    trace w1 = [Ev_Conn_Read (delivered hello_record); Ev_fn [] None] /\
    run [Call_Read (delivered hello_record); Call_Read timed_out] w1
    = Ret ([Reply_Read (delivered hello_record); Reply_Read timed_out],
           logged w1 [Ev_Conn_Read (delivered hello_record);
                      Ev_Conn_Read timed_out]) /\
    Read (delivered [x80]) w1
    = Ret (delivered [x80], logged w1 [Ev_Conn_Read (delivered [x80])]).
Proof.
  destruct fn_at_most_once as (_ & Hafter & Hdone).
  eexists. split; [vm_compute; reflexivity |].
  split; [reflexivity |]. split.
  - apply (Hafter pool0 [Call_Read (delivered hello_record)] _
             [Call_Read (delivered hello_record); Call_Read timed_out]);
      by_eval.
  - apply Hdone. reflexivity.
Defined.

(** C9. On a connection made by [ClientHelloConn], whenever the done flag
    is set the connection holds no buffer; the read that sets the flag
    puts the buffer it held, reset, back in the pool; and [Close], in any
    state, puts the held buffer back, reset, before it closes the
    underlying connection, and leaves the connection without a buffer. *)
Theorem done_releases_buffer :
  (forall pool cs, exists w',
     run cs (ClientHelloConn pool) = Ret (map answer cs, w') /\
     (doneCH (ch w') = true -> buf (ch w') = None)) /\
  (forall r w w' bf,
     Read r w = Ret (r, w') ->
     doneCH (ch w) = false -> doneCH (ch w') = true ->
     buf (ch w) = Some bf ->
     buf (ch w') = None /\
     bufferPool w' = Pool_Put {| addr := addr bf; contents := [] |} (bufferPool w) /\
     exists hb herr,
       trace w' = trace w ++
                  [Ev_Conn_Read r; Ev_fn hb herr; Ev_Pool_Put (addr bf)]) /\
  (forall e w, exists w',
     Close e w = Ret (e, w') /\
     buf (ch w') = None /\ doneCH (ch w') = doneCH (ch w) /\
     match buf (ch w) with
     | Some bf =>
         bufferPool w' = Pool_Put {| addr := addr bf; contents := [] |} (bufferPool w) /\
         trace w' = trace w ++ [Ev_Pool_Put (addr bf); Ev_Conn_Close e]
     | None =>
         bufferPool w' = bufferPool w /\
         trace w' = trace w ++ [Ev_Conn_Close e]
     end).
Proof.
  split; [| split].
  - intros pool cs. destruct (run_from_start pool cs) as (w' & Hr & _ & Hb).
    eauto.
  - intros r w w' bf HR Hd Hd' Hb.
    destruct (Read_cases r w) as (w'' & HR' & Hw).
    rewrite HR in HR'. injection HR' as <-.
    destruct Hw as [[_ ->] | [[_ ->] | [_ (hb & herr & ->)]]].
    + unfold logged in Hd'. cbn [ch] in Hd'. congruence.
    + unfold waiting in Hd'. rewrite Hb in Hd'. discriminate.
    + unfold finished. rewrite Hb. cbn [ch buf bufferPool trace].
      repeat split. eauto.
  - intros e w. exists (closed w e). split; [apply Close_closed |].
    unfold closed. cbn [ch buf doneCH bufferPool trace].
    destruct (buf (ch w)); auto.
Qed.

Lemma done_releases_buffer_witness :
  exists w2,
    Read (delivered [x00; x04; x01; x00; x00; x00]) half_read
    = Ret (delivered [x00; x04; x01; x00; x00; x00], w2) /\
    buf (ch w2) = None /\
    bufferPool w2
    = Pool_Put {| addr := O; contents := [] |} (bufferPool half_read).
Proof.
  destruct done_releases_buffer as (_ & Hread & _).
  edestruct (Hread (delivered [x00; x04; x01; x00; x00; x00]) half_read)
    as (Hb & Hp & _);
    [vm_compute; reflexivity | reflexivity | reflexivity | reflexivity |].
  eexists. split; [vm_compute; reflexivity | split; [exact Hb | exact Hp]].
Defined.

(** ** More bytes do not change a decision *)

Lemma firstn_app_le (n : Z) (l l' : list byte) :
  0 <= n <= len l -> firstn (Z.to_nat n) (l ++ l') = firstn (Z.to_nat n) l.
Proof.
  intros H. unfold len in H. rewrite firstn_app.
  replace (Z.to_nat n - List.length l)%nat with O by lia.
  cbn [firstn]. apply app_nil_r.
Qed.

Lemma handshakeRecord_nil_on_error (b p : list byte) (e : error) :
  handshakeRecord b = Ret (p, Some e) -> p = [].
Proof.
  destruct (Z.lt_ge_cases (len b) 5) as [H | H].
  - rewrite handshakeRecord_short by assumption. congruence.
  - destruct (at_least_5 b H) as (typ & v1 & v0 & l1 & l0 & payload & ->).
    rewrite handshakeRecord_header.
    repeat match goal with
           | |- context [if ?c then _ else _] => destruct c
           end; congruence.
Qed.

Lemma parseHello_nil_on_error (b p : list byte) (e : error) :
  parseHello b = Ret (p, Some e) -> p = [].
Proof.
  destruct (Z.lt_ge_cases (len b) 4) as [H | H].
  - rewrite parseHello_short by assumption. congruence.
  - destruct (at_least_4 b H) as (typ & b2 & b1 & b0 & body & ->).
    rewrite parseHello_header.
    repeat match goal with
           | |- context [if ?c then _ else _] => destruct c
           end; congruence.
Qed.

Lemma handshakeRecord_app_decided (s t p : list byte) (e : option error) :
  handshakeRecord s = Ret (p, e) -> is_ErrUnexpectedEOF e = false ->
  handshakeRecord (s ++ t) = Ret (p, e).
Proof.
  destruct (Z.lt_ge_cases (len s) 5) as [H | H].
  { rewrite handshakeRecord_short by assumption.
    intros [= <- <-]. discriminate. }
  destruct (at_least_5 s H) as (typ & v1 & v0 & l1 & l0 & payload & ->).
  cbn [app]. rewrite !handshakeRecord_header.
  destruct (negb (u8 typ =? 22)); [auto |].
  destruct (negb (u8 v1 =? 3)); [auto |].
  destruct (be16 l1 l0 >? 16384); [auto |].
  destruct (be16 l1 l0 >? len payload) eqn:E.
  { intros [= <- <-]. discriminate. }
  intros Hs _. pose proof (len_nonneg t). pose proof (be16_range l1 l0).
  replace (be16 l1 l0 >? len (payload ++ t)) with false
    by (symmetry; rewrite len_app; lia).
  rewrite firstn_app_le by lia. exact Hs.
Qed.

Lemma handshakeRecord_app_wait (s t p : list byte) :
  handshakeRecord (s ++ t) = Ret (p, Some io_ErrUnexpectedEOF) ->
  handshakeRecord s = Ret ([], Some io_ErrUnexpectedEOF).
Proof.
  intros H. destruct (handshakeRecord_returns s) as [[p' e'] Hs].
  destruct (is_ErrUnexpectedEOF e') eqn:He.
  - destruct e' as [[] |]; try discriminate.
    now rewrite (handshakeRecord_nil_on_error _ _ _ Hs) in Hs.
  - rewrite (handshakeRecord_app_decided s t _ _ Hs He) in H.
    injection H as _ ->. discriminate.
Qed.

Lemma sniff_returns (b : list byte) : exists o, sniff b = Ret o.
Proof.
  unfold sniff. destruct (handshakeRecord_returns b) as [[p e] ->].
  cbn [exec_bind]. destruct (is_ErrUnexpectedEOF e); [eauto |].
  destruct e as [e |]; cbn [exec_bind]; [eauto |].
  destruct (parseHello_returns p) as [r ->]. cbn [exec_bind]. eauto.
Qed.

Lemma sniff_wait_iff (b : list byte) :
  sniff b = Ret None <-> handshakeRecord b = Ret ([], Some io_ErrUnexpectedEOF).
Proof.
  unfold sniff. split.
  - destruct (handshakeRecord_returns b) as [[p e] Hb]. rewrite Hb.
    cbn [exec_bind]. destruct (is_ErrUnexpectedEOF e) eqn:He.
    + intros _. destruct e as [[] |]; try discriminate.
      now rewrite (handshakeRecord_nil_on_error _ _ _ Hb).
    + destruct e as [e |]; cbn [exec_bind]; [discriminate |].
      destruct (parseHello p); cbn [exec_bind]; discriminate.
  - intros ->. reflexivity.
Qed.

Lemma sniff_app_decided (s t : list byte) (res : parsed) :
  sniff s = Ret (Some res) -> sniff (s ++ t) = Ret (Some res).
Proof.
  unfold sniff. destruct (handshakeRecord_returns s) as [[p e] Hs].
  rewrite Hs. cbn [exec_bind].
  destruct (is_ErrUnexpectedEOF e) eqn:He; [discriminate |].
  rewrite (handshakeRecord_app_decided s t _ _ Hs He). cbn [exec_bind].
  now rewrite He.
Qed.

Lemma sniff_app_wait (s t : list byte) :
  sniff (s ++ t) = Ret None -> sniff s = Ret None.
Proof.
  rewrite !sniff_wait_iff. apply handshakeRecord_app_wait.
Qed.

Lemma sniff_nil : sniff [] = Ret None.
Proof. reflexivity. Qed.

(** ** Reads while sniffing *)

Lemma Read_sniffing (r : ReadResult) (w : World) :
  doneCH (ch w) = false -> failed r = false ->
  match sniff (seen w r) with
  | Ret None => Read r w = Ret (r, waiting w r)
  | Ret (Some (hb, herr)) => Read r w = Ret (r, finished w r hb herr)
  | Panic _ => False
  end.
Proof.
  intros Hd Hf. unfold failed in Hf.
  destruct (sniff (seen w r)) as [[[hb herr] |] | msg] eqn:Hs.
  - unfold sniff in Hs.
    destruct (handshakeRecord (seen w r)) as [[p e] | msg] eqn:Hp;
      cbn [exec_bind] in Hs; [| discriminate].
    destruct (is_ErrUnexpectedEOF e) eqn:He; [discriminate |].
    eapply Read_done; eauto.
    destruct e as [e |]; cbn [exec_bind] in Hs.
    + now injection Hs as <- <-.
    + destruct (parseHello p) as [r' | msg]; cbn [exec_bind] in Hs;
        [| discriminate].
      now injection Hs as ->.
  - apply sniff_wait_iff in Hs. eapply Read_wait; eauto.
  - destruct (sniff_returns (seen w r)) as [o Ho]. congruence.
Qed.



Lemma fn_calls_app (t t' : list Event) :
  fn_calls (t ++ t') = fn_calls t ++ fn_calls t'.
Proof.
  induction t as [| e t IH]; [reflexivity |].
  destruct e; cbn [app fn_calls]; rewrite IH; reflexivity.
Qed.

Lemma fn_calls_delegated (cs : list Call) : fn_calls (map event_of cs) = [].
Proof.
  induction cs as [| [r | e] cs IH]; cbn [map event_of fn_calls]; auto.
Qed.

Lemma Pool_Get_clean (p : Pool) :
  pool_clean p ->
  contents (fst (Pool_Get p)) = [] /\ pool_clean (snd (Pool_Get p)).
Proof.
  unfold pool_clean, Pool_Get. intros H.
  destruct (free p) as [| bf rest] eqn:E; cbn [fst snd contents free].
  - split; [reflexivity | constructor].
  - inversion H; subst. split; assumption.
Qed.

Lemma Pool_Put_clean (bf : Buffer) (p : Pool) :
  pool_clean p -> pool_clean (Pool_Put (Buffer_Reset bf) p).
Proof.
  unfold pool_clean, Pool_Put. cbn [free]. intros H.
  constructor; [reflexivity | assumption].
Qed.

Lemma Sniffing_seen (w : World) (acc : list byte) (r : ReadResult) :
  Sniffing w acc -> seen w r = acc ++ filled r.
Proof.
  unfold Sniffing, seen. intros (_ & _ & H).
  destruct (buf (ch w)); now subst.
Qed.

Lemma Sniffing_waiting (w : World) (acc : list byte) (r : ReadResult) :
  Sniffing w acc ->
  Sniffing (waiting w r) (acc ++ filled r) /\
  fn_calls (trace (waiting w r)) = fn_calls (trace w).
Proof.
  unfold Sniffing, waiting. intros (Hd & Hc & Hb).
  destruct (buf (ch w)) as [bf |].
  - cbn [ch doneCH buf bufferPool trace Buffer_Write contents].
    rewrite fn_calls_app. cbn [fn_calls]. rewrite app_nil_r.
    subst acc. auto.
  - destruct (Pool_Get_clean (bufferPool w) Hc) as [He Hc'].
    destruct (Pool_Get (bufferPool w)) as [bf p]. cbn [fst snd] in He, Hc'.
    cbn [ch doneCH buf bufferPool trace Buffer_Write contents].
    rewrite fn_calls_app. cbn [fn_calls]. rewrite app_nil_r.
    subst acc. rewrite He. auto.
Qed.

Lemma Sniffing_logged (w : World) (acc : list byte) (r : ReadResult) :
  Sniffing w acc ->
  Sniffing (logged w [Ev_Conn_Read r]) acc /\
  fn_calls (trace (logged w [Ev_Conn_Read r])) = fn_calls (trace w).
Proof.
  unfold Sniffing, logged. cbn [ch bufferPool trace]. intros H.
  split; [exact H |]. rewrite fn_calls_app. apply app_nil_r.
Qed.

Lemma fn_calls_finished (w : World) (r : ReadResult)
    (hb : list byte) (herr : option error) :
  fn_calls (trace (finished w r hb herr)) = fn_calls (trace w) ++ [(hb, herr)].
Proof.
  unfold finished. cbn [trace]. rewrite fn_calls_app.
  destruct (buf (ch w)); reflexivity.
Qed.

Lemma run_app (cs cs' : list Call) (w w1 w2 : World) (rs rs' : list Reply) :
  run cs w = Ret (rs, w1) -> run cs' w1 = Ret (rs', w2) ->
  run (cs ++ cs') w = Ret (rs ++ rs', w2).
Proof.
  revert w rs. induction cs as [| c cs IH]; intros w rs H H'.
  - cbn [run] in H. unfold ret in H. injection H as <- <-. exact H'.
  - cbn [run app] in *. unfold bind, ret in *.
    destruct (call c w) as [[a wa] |]; [| discriminate].
    destruct (run cs wa) as [[rs0 wb] |] eqn:E; [| discriminate].
    injection H as <- <-.
    now rewrite (IH wa rs0 E H').
Qed.

Lemma answer_reads (rs : list ReadResult) :
  map answer (map Call_Read rs) = map Reply_Read rs.
Proof. now rewrite map_map. Qed.

(** While the bytes do not decide, the reads pile them up in the buffer. *)
Lemma run_reads_wait (rs : list ReadResult) (w : World) (acc : list byte) :
  Sniffing w acc -> sniff (acc ++ sniffed rs) = Ret None ->
  exists w',
    run (map Call_Read rs) w = Ret (map Reply_Read rs, w') /\
    Sniffing w' (acc ++ sniffed rs) /\
    fn_calls (trace w') = fn_calls (trace w).
Proof.
  revert w acc. induction rs as [| r rs IH]; intros w acc HS Hw.
  - exists w. cbn [map run sniffed]. rewrite app_nil_r. now unfold ret.
  - cbn [map run sniffed] in *. unfold bind, ret. cbn [call].
    unfold bind, ret.
    destruct (failed r) eqn:Hf.
    + rewrite (Read_passthrough r w) by (right; exact Hf).
      destruct (Sniffing_logged w acc r HS) as [HS' Hc'].
      destruct (IH _ _ HS' Hw) as (w' & -> & HS'' & Hc'').
      exists w'. split; [reflexivity | split; [exact HS'' | congruence]].
    + rewrite app_assoc in Hw.
      pose proof (Read_sniffing r w (proj1 HS) Hf) as HR.
      rewrite (Sniffing_seen w acc r HS), (sniff_app_wait _ _ Hw) in HR.
      rewrite HR.
      destruct (Sniffing_waiting w acc r HS) as [HS' Hc'].
      destruct (IH _ _ HS' Hw) as (w' & -> & HS'' & Hc'').
      exists w'. rewrite app_assoc.
      split; [reflexivity | split; [exact HS'' | congruence]].
Qed.

(** Once they decide, the observer is called with the decision. *)
Lemma run_reads_decided (rs : list ReadResult) (w : World)
    (acc : list byte) (res : parsed) :
  Sniffing w acc -> sniff acc = Ret None ->
  sniff (acc ++ sniffed rs) = Ret (Some res) ->
  exists w',
    run (map Call_Read rs) w = Ret (map Reply_Read rs, w') /\
    ch w' = {| buf := None; doneCH := true |} /\
    fn_calls (trace w') = fn_calls (trace w) ++ [res].
Proof.
  revert w acc. induction rs as [| r rs IH]; intros w acc HS Hacc Hd.
  - cbn [sniffed] in Hd. rewrite app_nil_r in Hd. congruence.
  - cbn [map run sniffed] in *. unfold bind, ret. cbn [call].
    unfold bind, ret.
    destruct (failed r) eqn:Hf.
    + rewrite (Read_passthrough r w) by (right; exact Hf).
      destruct (Sniffing_logged w acc r HS) as [HS' Hc'].
      destruct (IH _ _ HS' Hacc Hd) as (w' & -> & Hch & Hc'').
      exists w'. split; [reflexivity | split; [exact Hch | congruence]].
    + rewrite app_assoc in Hd.
      pose proof (Read_sniffing r w (proj1 HS) Hf) as HR.
      rewrite (Sniffing_seen w acc r HS) in HR.
      destruct (sniff (acc ++ filled r)) as [[[hb herr] |] | msg] eqn:Hs;
        [| | contradiction].
      * rewrite (sniff_app_decided _ (sniffed rs) _ Hs) in Hd.
        injection Hd as <-. rewrite HR.
        destruct (run_steps (map Call_Read rs) (finished w r hb herr))
          as (w' & Hr & _ & Hp).
        rewrite Hr, answer_reads.
        rewrite (Hp eq_refl eq_refl).
        eexists. split; [reflexivity |].
        unfold logged. cbn [ch trace]. split; [reflexivity |].
        rewrite fn_calls_app, fn_calls_delegated, app_nil_r.
        apply fn_calls_finished.
      * rewrite HR.
        destruct (Sniffing_waiting w acc r HS) as [HS' Hc'].
        destruct (IH _ _ HS' Hs Hd) as (w' & -> & Hch & Hc'').
        exists w'. split; [reflexivity | split; [exact Hch | congruence]].
Qed.

Lemma Sniffing_start (pool : Pool) :
  pool_clean pool -> Sniffing (ClientHelloConn pool) [].
Proof. intros H. unfold Sniffing, ClientHelloConn. cbn. auto. Qed.

(** The calls of the observer over a sequence of reads, whatever the
    pieces: none while the bytes sniffed do not decide, and one, with the
    decision on all of them, once they do. *)
Lemma run_reads_fn_calls (pool : Pool) (rs : list ReadResult) :
  pool_clean pool ->
  exists w',
    run (map Call_Read rs) (ClientHelloConn pool) = Ret (map Reply_Read rs, w') /\
    match sniff (sniffed rs) with
    | Ret (Some res) =>
        fn_calls (trace w') = [res] /\ ch w' = {| buf := None; doneCH := true |}
    | Ret None =>
        fn_calls (trace w') = [] /\ Sniffing w' (sniffed rs)
    | Panic _ => False
    end.
Proof.
  intros Hc. pose proof (Sniffing_start pool Hc) as HS.
  destruct (sniff (sniffed rs)) as [[res |] | msg] eqn:Hs.
  - destruct (run_reads_decided rs _ [] _ HS sniff_nil Hs)
      as (w' & Hr & Hch & Hf).
    exists w'. split; [exact Hr |]. split; [exact Hf | exact Hch].
  - destruct (run_reads_wait rs _ [] HS Hs) as (w' & Hr & HS' & Hf).
    exists w'. split; [exact Hr |]. split; [exact Hf | exact HS'].
  - destruct (sniff_returns (sniffed rs)) as [o Ho]. congruence.
Qed.

(** ** Every state a connection gets into *)

(** The four ways a call changes the world. *)
Lemma call_shapes (c : Call) (w : World) :
  exists w', call c w = Ret (answer c, w') /\
    (w' = logged w [event_of c]
     \/ (exists r, c = Call_Read r /\ doneCH (ch w) = false /\
           sniff (seen w r) = Ret None /\ w' = waiting w r)
     \/ (exists r hb herr, c = Call_Read r /\ doneCH (ch w) = false /\
           sniff (seen w r) = Ret (Some (hb, herr)) /\
           w' = finished w r hb herr)
     \/ (exists e, c = Call_Close e /\ w' = closed w e)).
Proof.
  destruct c as [r | e]; cbn [call answer event_of]; unfold bind, ret.
  - destruct (doneCH (ch w)) eqn:Hd.
    { rewrite Read_passthrough by auto. eauto. }
    destruct (failed r) eqn:Hf.
    { rewrite Read_passthrough by auto. eauto. }
    pose proof (Read_sniffing r w Hd Hf) as HR.
    destruct (sniff (seen w r)) as [[[hb herr] |] | msg] eqn:Hs;
      [| | contradiction]; rewrite HR; eexists; (split; [reflexivity |]).
    + right. right. left. eauto 8.
    + right. left. eauto 8.
  - rewrite Close_closed. eauto 8.
Qed.

Section Reachable.

Variable P : World -> Prop.

Hypothesis P_logged : forall w c, P w -> P (logged w [event_of c]).
Hypothesis P_waiting :
  forall w r, P w -> doneCH (ch w) = false ->
              sniff (seen w r) = Ret None -> P (waiting w r).
Hypothesis P_finished :
  forall w r hb herr, P w -> doneCH (ch w) = false ->
                      sniff (seen w r) = Ret (Some (hb, herr)) ->
                      P (finished w r hb herr).
Hypothesis P_closed : forall w e, P w -> P (closed w e).

Lemma call_preserves (c : Call) (w w' : World) (a : Reply) :
  P w -> call c w = Ret (a, w') -> P w'.
Proof.
  intros HP Hc. destruct (call_shapes c w) as (w'' & Hc' & Hw).
  rewrite Hc in Hc'. injection Hc' as _ <-.
  destruct Hw as [-> | [(r & _ & Hd & Hs & ->) |
                        [(r & hb & herr & _ & Hd & Hs & ->) | (e & _ & ->)]]];
    auto.
Qed.

Lemma run_preserves (cs : list Call) (w w' : World) (rs : list Reply) :
  P w -> run cs w = Ret (rs, w') -> P w'.
Proof.
  revert w rs. induction cs as [| c cs IH]; intros w rs HP Hr.
  - cbn [run] in Hr. unfold ret in Hr. now injection Hr as _ <-.
  - cbn [run] in Hr. unfold bind, ret in Hr.
    destruct (call c w) as [[a wa] |] eqn:Hc; [| discriminate].
    destruct (run cs wa) as [[rs0 wb] |] eqn:E; [| discriminate].
    injection Hr as _ <-.
    eapply IH; [| exact E]. eapply call_preserves; eauto.
Qed.

End Reachable.

Lemma sniff_wait_bound (b : list byte) :
  sniff b = Ret None -> len b < 5 + 16384.
Proof.
  intros H. apply sniff_wait_iff in H.
  pose proof (handshakeRecord_outcome_inv b) as Hi. rewrite H in Hi.
  cbn [run_outcome outcome] in Hi.
  destruct Hi as [Hshort | (typ & v1 & v0 & l1 & l0 & payload & -> & _ & _ & Hmax & Hlen)].
  - lia.
  - rewrite !len_cons. lia.
Qed.

Lemma Inv_start (pool : Pool) : pool_clean pool -> Inv (ClientHelloConn pool).
Proof.
  intros H. unfold Inv, ClientHelloConn. cbn [ch bufferPool buf].
  split; [exact H | discriminate].
Qed.

Lemma Inv_run (cs : list Call) (w w' : World) (rs : list Reply) :
  Inv w -> run cs w = Ret (rs, w') -> Inv w'.
Proof.
  apply run_preserves.
  - intros w0 c H. exact H.
  - intros w0 r (Hc & Hb) Hd Hs. unfold Inv, waiting, seen in *.
    destruct (buf (ch w0)) as [bf |].
    + cbn [ch bufferPool buf doneCH]. split; [exact Hc |].
      intros bf' [= <-]. cbn [Buffer_Write contents]. auto.
    + destruct (Pool_Get_clean (bufferPool w0) Hc) as [He Hc'].
      destruct (Pool_Get (bufferPool w0)) as [bf p]. cbn [fst snd] in He, Hc'.
      cbn [ch bufferPool buf doneCH]. split; [exact Hc' |].
      intros bf' [= <-]. cbn [Buffer_Write contents]. rewrite He. auto.
  - intros w0 r hb herr (Hc & Hb) Hd Hs. unfold Inv, finished.
    cbn [ch bufferPool buf]. split; [| discriminate].
    destruct (buf (ch w0)); [now apply Pool_Put_clean | exact Hc].
  - intros w0 e (Hc & Hb). unfold Inv, closed.
    cbn [ch bufferPool buf]. split; [| discriminate].
    destruct (buf (ch w0)); [now apply Pool_Put_clean | exact Hc].
Qed.

Lemma count_get_app (t t' : list Event) :
  count_get (t ++ t') = (count_get t + count_get t')%nat.
Proof.
  induction t as [| e t IH]; [reflexivity |].
  destruct e; cbn [app count_get]; rewrite IH; reflexivity.
Qed.

Lemma count_put_app (t t' : list Event) :
  count_put (t ++ t') = (count_put t + count_put t')%nat.
Proof.
  induction t as [| e t IH]; [reflexivity |].
  destruct e; cbn [app count_put]; rewrite IH; reflexivity.
Qed.

Lemma balance_run (cs : list Call) (w w' : World) (rs : list Reply) :
  (count_get (trace w) = count_put (trace w) + held w)%nat ->
  run cs w = Ret (rs, w') ->
  (count_get (trace w') = count_put (trace w') + held w')%nat.
Proof.
  apply (run_preserves
           (fun w => count_get (trace w) = count_put (trace w) + held w)%nat).
  - intros w0 c H. unfold logged, held in *. cbn [ch trace].
    rewrite count_get_app, count_put_app. destruct c; cbn; lia.
  - intros w0 r H _ _. unfold waiting, held in *.
    destruct (buf (ch w0)) as [bf |].
    + cbn [ch trace buf]. rewrite count_get_app, count_put_app. cbn. lia.
    + destruct (Pool_Get (bufferPool w0)) as [bf p].
      cbn [ch trace buf]. rewrite count_get_app, count_put_app. cbn. lia.
  - intros w0 r hb herr H _ _. unfold finished, held in *.
    cbn [ch trace buf]. rewrite count_get_app, count_put_app.
    destruct (buf (ch w0)); cbn; lia.
  - intros w0 e H. unfold closed, held in *.
    cbn [ch trace buf]. rewrite count_get_app, count_put_app.
    destruct (buf (ch w0)); cbn; lia.
Qed.

Lemma Owned_start (pool : Pool) : pool_wf pool -> Owned (ClientHelloConn pool).
Proof.
  intros [Hn Hf]. unfold Owned, ClientHelloConn, held_addrs.
  cbn [ch bufferPool buf app]. split; [exact Hn |].
  now rewrite Forall_map.
Qed.

Lemma Owned_run (cs : list Call) (w w' : World) (rs : list Reply) :
  Owned w -> run cs w = Ret (rs, w') -> Owned w'.
Proof.
  apply run_preserves.
  - intros w0 c H. exact H.
  - intros w0 r [Hn Hf] _ _. unfold Owned, waiting, held_addrs in *.
    destruct (buf (ch w0)) as [bf |].
    + cbn [ch bufferPool buf Buffer_Write addr]. auto.
    + unfold Pool_Get. destruct (free (bufferPool w0)) as [| bf rest].
      * cbn [ch bufferPool buf Buffer_Write addr free fresh map app].
        split; [repeat constructor; auto | repeat constructor].
      * cbn [ch bufferPool buf Buffer_Write addr free fresh map app] in *.
        auto.
  - intros w0 r hb herr [Hn Hf] _ _. unfold Owned, finished, held_addrs in *.
    destruct (buf (ch w0)) as [bf |];
      cbn [ch bufferPool buf Pool_Put Buffer_Reset Buffer_Write addr free
           fresh map app] in *; auto.
  - intros w0 e [Hn Hf]. unfold Owned, closed, held_addrs in *.
    destruct (buf (ch w0)) as [bf |];
      cbn [ch bufferPool buf Pool_Put Buffer_Reset addr free fresh map app] in *;
      auto.
Qed.

(** ** The observer over a whole stream *)

Lemma sniffed_delivered (chunks : list (list byte)) :
  sniffed (map delivered chunks) = List.concat chunks.
Proof.
  induction chunks as [| c chunks IH]; [reflexivity |].
  cbn [map sniffed List.concat]. unfold failed. cbn. now rewrite IH.
Qed.

Lemma reads_delivered (chunks : list (list byte)) :
  reads chunks = map Call_Read (map delivered chunks).
Proof. unfold reads. now rewrite map_map. Qed.

Lemma firstn_exact (l l' : list byte) :
  firstn (Z.to_nat (len l)) (l ++ l') = l.
Proof.
  rewrite firstn_app_le by (pose proof (len_nonneg l); lia).
  unfold len. rewrite Nat2Z.id. apply firstn_all.
Qed.

(** The decision on a stream that starts with a handshake record holding
    a ClientHello. *)
Lemma sniff_ClientHello (typ v1 v0 l1 l0 ht b2 b1 b0 : byte)
    (body pad later : list byte) :
  u8 typ = 22 -> u8 v1 = 3 -> u8 ht = 1 ->
  be16 l1 l0 = 4 + len body + len pad -> be16 l1 l0 <= 16384 ->
  be24 b2 b1 b0 = len body ->
  sniff (typ :: v1 :: v0 :: l1 :: l0 ::
         (ht :: b2 :: b1 :: b0 :: body ++ pad) ++ later)
  = Ret (Some (body, None)).
Proof.
  intros Ht Hv Hh Hrec Hmax Hbody.
  pose proof (len_nonneg body). pose proof (len_nonneg pad).
  pose proof (len_nonneg later).
  assert (len (ht :: b2 :: b1 :: b0 :: body ++ pad) = be16 l1 l0) as Hp.
  { rewrite !len_cons, len_app. lia. }
  unfold sniff. rewrite handshakeRecord_header, Ht, Hv.
  cbn [Z.eqb Pos.eqb negb].
  replace (be16 l1 l0 >? 16384) with false by (symmetry; lia).
  replace (be16 l1 l0 >? len ((ht :: b2 :: b1 :: b0 :: body ++ pad) ++ later))
    with false by (symmetry; rewrite len_app; lia).
  rewrite <- Hp, firstn_exact. cbn [exec_bind is_ErrUnexpectedEOF].
  rewrite parseHello_header, Hh. cbn [Z.eqb Pos.eqb negb].
  replace (be24 b2 b1 b0 >? len (body ++ pad)) with false
    by (symmetry; rewrite len_app; lia).
  rewrite Hbody, firstn_exact. reflexivity.
Qed.

(** X1. Over any sequence of reads on a fresh connection, the observer is
    not called while the bytes sniffed so far (those of the reads that
    did not fail) leave the record incomplete, and is called once, with
    what the two parsers make of all the bytes sniffed, as soon as they
    decide; the replies are the transport's. *)
Theorem observer_gets_the_decision :
  forall pool rs,
    pool_clean pool ->
    exists w',
      run (map Call_Read rs) (ClientHelloConn pool)
      = Ret (map Reply_Read rs, w') /\
      fn_calls (trace w')
      = match sniff (sniffed rs) with
        | Ret (Some res) => [res]
        | _ => []
        end.
Proof.
  intros pool rs Hc.
  destruct (run_reads_fn_calls pool rs Hc) as (w' & Hr & Hm).
  exists w'. split; [exact Hr |].
  destruct (sniff (sniffed rs)) as [[res |] | msg]; tauto.
Qed.

Lemma observer_gets_the_decision_witness :
  exists w',
    run (map Call_Read [delivered [x16; x03]; timed_out;
                        last_read [x01; x00; x04; x01; x00; x00; x00]])
        (ClientHelloConn pool0)
    = Ret (map Reply_Read [delivered [x16; x03]; timed_out;
                           last_read [x01; x00; x04; x01; x00; x00; x00]], w') /\
    fn_calls (trace w') = [([], None)].
Proof.
  apply (observer_gets_the_decision pool0
           [delivered [x16; x03]; timed_out;
            last_read [x01; x00; x04; x01; x00; x00; x00]]).
  constructor.
Defined.

(** X2. How the stream is cut into reads does not matter to the observer:
    two sequences of reads that carry the same bytes lead to the same
    calls of the observer. *)
Theorem chopping_is_irrelevant :
  forall pool pool' rs rs',
    pool_clean pool -> pool_clean pool' ->
    sniffed rs = sniffed rs' ->
    exists w w',
      run (map Call_Read rs) (ClientHelloConn pool)
      = Ret (map Reply_Read rs, w) /\
      run (map Call_Read rs') (ClientHelloConn pool')
      = Ret (map Reply_Read rs', w') /\
      fn_calls (trace w) = fn_calls (trace w').
Proof.
  intros pool pool' rs rs' Hc Hc' Hs.
  destruct (run_reads_fn_calls pool rs Hc) as (w & Hr & Hm).
  destruct (run_reads_fn_calls pool' rs' Hc') as (w' & Hr' & Hm').
  exists w, w'. split; [exact Hr | split; [exact Hr' |]].
  rewrite <- Hs in Hm'.
  destruct (sniff (sniffed rs)) as [[res |] | msg]; [| | contradiction].
  - destruct Hm as [-> _], Hm' as [-> _]. reflexivity.
  - destruct Hm as [-> _], Hm' as [-> _]. reflexivity.
Qed.

Lemma chopping_is_irrelevant_witness :
  exists w w',
    run (map Call_Read [delivered hello_record]) (ClientHelloConn pool0)
    = Ret (map Reply_Read [delivered hello_record], w) /\
    run (map Call_Read (map (fun v => delivered [v]) hello_record))
        (ClientHelloConn pool0)
    = Ret (map Reply_Read (map (fun v => delivered [v]) hello_record), w') /\
    fn_calls (trace w) = fn_calls (trace w').
Proof.
  apply (chopping_is_irrelevant pool0 pool0 [delivered hello_record]
           (map (fun v => delivered [v]) hello_record));
    [constructor | constructor | reflexivity].
Defined.

(** X3. A stream that starts with one handshake record (type 22, major
    version 3, at most 16384 bytes) holding a ClientHello message (type
    1, body of the declared length), read in any pieces, makes the
    observer be called exactly once, with the body of the ClientHello and
    no error, whatever follows the message in the record and the record
    in the stream. *)
Theorem ClientHello_in_any_pieces :
  forall pool chunks typ v1 v0 l1 l0 ht b2 b1 b0 body pad later,
    pool_clean pool ->
    u8 typ = 22 -> u8 v1 = 3 -> u8 ht = 1 ->
    be16 l1 l0 = 4 + len body + len pad -> be16 l1 l0 <= 16384 ->
    be24 b2 b1 b0 = len body ->
    List.concat chunks
    = typ :: v1 :: v0 :: l1 :: l0 ::
      (ht :: b2 :: b1 :: b0 :: body ++ pad) ++ later ->
    exists w',
      run (reads chunks) (ClientHelloConn pool)
      = Ret (map (fun c => Reply_Read (delivered c)) chunks, w') /\
      fn_calls (trace w') = [(body, None)] /\
      ch w' = {| buf := None; doneCH := true |}.
Proof.
  intros pool chunks typ v1 v0 l1 l0 ht b2 b1 b0 body pad later
    Hc Ht Hv Hh Hrec Hmax Hbody Hstream.
  destruct (run_reads_fn_calls pool (map delivered chunks) Hc) as (w' & Hr & Hm).
  rewrite sniffed_delivered, Hstream in Hm.
  rewrite (sniff_ClientHello typ v1 v0 l1 l0 ht b2 b1 b0 body pad later)
    in Hm by assumption.
  exists w'. rewrite reads_delivered, Hr, map_map. auto.
Qed.

Lemma ClientHello_in_any_pieces_witness :
  exists w',
    run (reads [[x16; x03; x01; x00]; []; [x07; x01; x00; x00; x02; xaa];
                [xbb; xcc; x17]])
        (ClientHelloConn pool0)
    = Ret (map (fun c => Reply_Read (delivered c))
               [[x16; x03; x01; x00]; []; [x07; x01; x00; x00; x02; xaa];
                [xbb; xcc; x17]], w') /\
    fn_calls (trace w') = [([xaa; xbb], None)] /\
    ch w' = {| buf := None; doneCH := true |}.
Proof.
  apply (ClientHello_in_any_pieces pool0
           [[x16; x03; x01; x00]; []; [x07; x01; x00; x00; x02; xaa];
            [xbb; xcc; x17]]
           x16 x03 x01 x00 x07 x01 x00 x00 x02 [xaa; xbb] [xcc] [x17]);
    first [constructor; fail | by_eval].
Defined.

(** X4. While the bytes sniffed leave the record incomplete, and so also
    when the stream ends before the record does, the observer is not
    called, the connection stays in the sniffing state, and the buffer,
    once there is one, holds exactly the bytes sniffed so far. *)
Theorem incomplete_record_is_buffered :
  forall pool rs,
    pool_clean pool ->
    sniff (sniffed rs) = Ret None ->
    exists w',
      run (map Call_Read rs) (ClientHelloConn pool)
      = Ret (map Reply_Read rs, w') /\
      fn_calls (trace w') = [] /\
      doneCH (ch w') = false /\
      match buf (ch w') with
      | Some bf => contents bf = sniffed rs
      | None => sniffed rs = []
      end.
Proof.
  intros pool rs Hc Hs.
  destruct (run_reads_fn_calls pool rs Hc) as (w' & Hr & Hm).
  rewrite Hs in Hm. destruct Hm as (Hf & Hd & _ & Hb).
  exists w'. auto.
Qed.

Lemma incomplete_record_is_buffered_witness :
  exists w',
    run (map Call_Read [delivered [x16; x03; x01]; last_read [x00; x04; x01]])
        (ClientHelloConn pool0)
    = Ret (map Reply_Read [delivered [x16; x03; x01];
                           last_read [x00; x04; x01]], w') /\
    fn_calls (trace w') = [] /\
    doneCH (ch w') = false /\
    match buf (ch w') with
    | Some bf => contents bf = [x16; x03; x01; x00; x04; x01]
    | None => [x16; x03; x01; x00; x04; x01] = []
    end.
Proof.
  apply (incomplete_record_is_buffered pool0
           [delivered [x16; x03; x01]; last_read [x00; x04; x01]]);
    [constructor | reflexivity].
Defined.

(** ** Resources *)

(** X5. In every state a connection gets into, by reads and closes in any
    order, a held buffer contains fewer than 5 + 16384 bytes, and they
    are bytes that leave the record incomplete: what a peer can make the
    sniffer keep is bounded by the largest record. *)
Theorem buffer_is_bounded :
  forall pool cs rs w' bf,
    pool_clean pool ->
    run cs (ClientHelloConn pool) = Ret (rs, w') ->
    buf (ch w') = Some bf ->
    len (contents bf) < 5 + 16384 /\
    sniff (contents bf) = Ret None /\
    doneCH (ch w') = false.
Proof.
  intros pool cs rs w' bf Hc Hr Hb.
  destruct (Inv_run cs _ w' rs (Inv_start pool Hc) Hr) as [_ Hi].
  destruct (Hi bf Hb) as [Hd Hs].
  split; [now apply sniff_wait_bound | auto].
Qed.

Lemma buffer_is_bounded_witness :
  len [x16; x03; x01] < 5 + 16384 /\
  sniff [x16; x03; x01] = Ret None /\
  doneCH (ch half_read) = false.
Proof.
  apply (buffer_is_bounded pool0 [Call_Read (delivered [x16; x03; x01])]
           [Reply_Read (delivered [x16; x03; x01])] half_read
           {| addr := O; contents := [x16; x03; x01] |});
    [constructor | reflexivity | reflexivity].
Defined.

(** X6. Every buffer that goes back to the pool has been reset: if the
    pool holds only empty buffers when the connection is made, it holds
    only empty buffers after any calls, so the next [Get] hands out an
    empty buffer. *)
Theorem pool_stays_clean :
  forall pool cs rs w',
    pool_clean pool ->
    run cs (ClientHelloConn pool) = Ret (rs, w') ->
    pool_clean (bufferPool w') /\
    contents (fst (Pool_Get (bufferPool w'))) = [].
Proof.
  intros pool cs rs w' Hc Hr.
  destruct (Inv_run cs _ w' rs (Inv_start pool Hc) Hr) as [Hc' _].
  split; [exact Hc' | now apply Pool_Get_clean].
Qed.

Lemma pool_stays_clean_witness :
  exists w',
    run [Call_Read (delivered [x16; x03; x01]); Call_Close None]
        (ClientHelloConn pool0)
    = Ret ([Reply_Read (delivered [x16; x03; x01]); Reply_Close None], w') /\
    free (bufferPool w') = [{| addr := O; contents := [] |}] /\
    pool_clean (bufferPool w') /\
    contents (fst (Pool_Get (bufferPool w'))) = [].
Proof.
  eexists. split; [vm_compute; reflexivity |]. split; [reflexivity |].
  apply (pool_stays_clean pool0
           [Call_Read (delivered [x16; x03; x01]); Call_Close None]
           [Reply_Read (delivered [x16; x03; x01]); Reply_Close None]);
    [constructor | reflexivity].
Defined.

(** X7. Buffers are neither leaked nor given back twice: at any point the
    number of [Get] calls is the number of [Put] calls plus one when the
    connection holds a buffer, and after [Close] the two are equal. *)
Theorem pool_calls_balance :
  forall pool cs rs w',
    run cs (ClientHelloConn pool) = Ret (rs, w') ->
    (count_get (trace w') = count_put (trace w') + held w')%nat /\
    forall e, exists w'',
      Close e w' = Ret (e, w'') /\
      count_get (trace w'') = count_put (trace w'').
Proof.
  intros pool cs rs w' Hr.
  assert (count_get (trace w') = count_put (trace w') + held w')%nat as Hb.
  { eapply balance_run; [| exact Hr]. reflexivity. }
  split; [exact Hb |].
  intros e. exists (closed w' e). split; [apply Close_closed |].
  unfold closed, held in *. cbn [trace].
  rewrite count_get_app, count_put_app.
  destruct (buf (ch w')); cbn; lia.
Qed.

Lemma pool_calls_balance_witness :
  (count_get (trace half_read) = count_put (trace half_read) + held half_read)%nat /\
  forall e, exists w'',
    Close e half_read = Ret (e, w'') /\
    count_get (trace w'') = count_put (trace w'').
Proof.
  apply (pool_calls_balance pool0 [Call_Read (delivered [x16; x03; x01])]
           [Reply_Read (delivered [x16; x03; x01])] half_read).
  reflexivity.
Defined.

(** X8. A buffer has one owner: if the pooled buffers are distinct
    objects when the connection is made, then after any calls they still
    are, and the buffer the connection holds is not among them. *)
Theorem buffer_has_one_owner :
  forall pool cs rs w',
    pool_wf pool ->
    run cs (ClientHelloConn pool) = Ret (rs, w') ->
    pool_wf (bufferPool w') /\
    forall bf, buf (ch w') = Some bf ->
               ~ In (addr bf) (map addr (free (bufferPool w'))).
Proof.
  intros pool cs rs w' Hwf Hr.
  destruct (Owned_run cs _ w' rs (Owned_start pool Hwf) Hr) as [Hn Hf].
  unfold held_addrs, pool_wf in *.
  destruct (buf (ch w')) as [bf |]; cbn [app] in *.
  - inversion Hn; subst. inversion Hf; subst.
    split; [split; [assumption | now rewrite Forall_map in *] |].
    now intros bf' [= <-].
  - split; [split; [assumption | now rewrite Forall_map in *] | discriminate].
Qed.

Lemma buffer_has_one_owner_witness :
  pool_wf (bufferPool half_read) /\
  forall bf, buf (ch half_read) = Some bf ->
             ~ In (addr bf) (map addr (free (bufferPool half_read))).
Proof.
  apply (buffer_has_one_owner pool0 [Call_Read (delivered [x16; x03; x01])]
           [Reply_Read (delivered [x16; x03; x01])] half_read);
    [split; constructor | reflexivity].
Defined.

(** ** What the observer can be given *)

Lemma handshakeRecord_error_kind (b p : list byte) (e : error) :
  handshakeRecord b = Ret (p, Some e) -> Record_error e.
Proof.
  unfold Record_error.
  destruct (Z.lt_ge_cases (len b) 5) as [H | H].
  - rewrite handshakeRecord_short by assumption. intros [= _ <-]. auto.
  - destruct (at_least_5 b H) as (typ & v1 & v0 & l1 & l0 & payload & ->).
    rewrite handshakeRecord_header.
    repeat match goal with
           | |- context [if ?c then _ else _] => destruct c
           end; intros [= _ <-]; eauto 8.
Qed.

Lemma parseHello_error_kind (b p : list byte) (e : error) :
  parseHello b = Ret (p, Some e) -> Hello_error e.
Proof.
  unfold Hello_error.
  destruct (Z.lt_ge_cases (len b) 4) as [H | H].
  - rewrite parseHello_short by assumption. intros [= _ <-]. auto.
  - destruct (at_least_4 b H) as (typ & b2 & b1 & b0 & body & ->).
    rewrite parseHello_header.
    repeat match goal with
           | |- context [if ?c then _ else _] => destruct c
           end; intros [= _ <-]; eauto 8.
Qed.

Lemma handshakeRecord_payload_bound (b p : list byte) :
  handshakeRecord b = Ret (p, None) -> len p <= 16384.
Proof.
  intros H. pose proof (handshakeRecord_outcome_inv b) as Hi.
  rewrite H in Hi. cbn [run_outcome outcome] in Hi.
  destruct Hi as (typ & v1 & v0 & l1 & l0 & payload & _ & _ & _ & Hmax & Hfit & ->).
  pose proof (be16_range l1 l0).
  unfold len in *. rewrite length_firstn. lia.
Qed.

Lemma parseHello_body_bound (b body : list byte) :
  parseHello b = Ret (body, None) -> 4 + len body <= len b.
Proof.
  destruct (Z.lt_ge_cases (len b) 4) as [H | H].
  - rewrite parseHello_short by assumption. discriminate.
  - destruct (at_least_4 b H) as (typ & b2 & b1 & b0 & rest & ->).
    rewrite parseHello_header.
    destruct (negb (u8 typ =? 1)); [discriminate |].
    destruct (be24 b2 b1 b0 >? len rest) eqn:E; [discriminate |].
    intros [= <-]. pose proof (be24_range b2 b1 b0).
    rewrite !len_cons. unfold len in *. rewrite length_firstn. lia.
Qed.

Lemma Hello_error_not_wait (e : error) :
  Hello_error e -> e <> io_ErrUnexpectedEOF /\ e <> io_EOF.
Proof.
  unfold Hello_error. intros [-> | [[typ ->] | ->]]; split; discriminate.
Qed.

Lemma sniff_decision (b : list byte) (c : parsed) :
  sniff b = Ret (Some c) -> well_formed_call c.
Proof.
  unfold sniff. destruct (handshakeRecord b) as [[p e] | msg] eqn:Hp;
    cbn [exec_bind]; [| discriminate].
  destruct (is_ErrUnexpectedEOF e) eqn:He; [discriminate |].
  destruct e as [e |]; cbn [exec_bind].
  - intros [= <-]. cbn [well_formed_call].
    split; [eapply handshakeRecord_nil_on_error; eauto |].
    split; [left; eapply handshakeRecord_error_kind; eauto |].
    split; [intros -> ; discriminate |].
    pose proof (handshakeRecord_error_kind _ _ _ Hp) as Hk.
    unfold Record_error in Hk. intros ->.
    destruct Hk as [Hk | [Hk | [Hk | [[v Hk] | Hk]]]]; discriminate.
  - destruct (parseHello p) as [[hb herr] | msg] eqn:Hh; cbn [exec_bind];
      [| discriminate].
    intros [= <-]. destruct herr as [e |]; cbn [well_formed_call].
    + split; [eapply parseHello_nil_on_error; eauto |].
      pose proof (parseHello_error_kind _ _ _ Hh) as Hk.
      split; [now right |]. now apply Hello_error_not_wait.
    + pose proof (handshakeRecord_payload_bound _ _ Hp).
      pose proof (parseHello_body_bound _ _ Hh). lia.
Qed.

Lemma fn_calls_well_formed (cs : list Call) (w w' : World) (rs : list Reply) :
  Forall well_formed_call (fn_calls (trace w)) ->
  run cs w = Ret (rs, w') ->
  Forall well_formed_call (fn_calls (trace w')).
Proof.
  apply (run_preserves (fun w => Forall well_formed_call (fn_calls (trace w)))).
  - intros w0 c H. unfold logged. cbn [trace]. rewrite fn_calls_app.
    destruct c; cbn [event_of fn_calls]; now rewrite app_nil_r.
  - intros w0 r H _ _. unfold waiting.
    destruct (buf (ch w0)) as [bf |].
    + cbn [trace]. rewrite fn_calls_app. cbn [fn_calls]. now rewrite app_nil_r.
    + destruct (Pool_Get (bufferPool w0)) as [bf p].
      cbn [trace]. rewrite fn_calls_app. cbn [fn_calls]. now rewrite app_nil_r.
  - intros w0 r hb herr H _ Hs. rewrite fn_calls_finished.
    apply Forall_app. split; [exact H |].
    constructor; [| constructor]. now apply (sniff_decision (seen w0 r)).
  - intros w0 e H. unfold closed. cbn [trace]. rewrite fn_calls_app.
    destruct (buf (ch w0)); cbn [fn_calls]; now rewrite app_nil_r.
Qed.

(** X9. Whatever the calls on a connection and whatever the transport
    returns, a call of the observer has one of two forms: a slice of at
    most 16380 bytes with a nil error, or a nil slice with one of the
    errors the two parsers are written to return, which is never
    [io.ErrUnexpectedEOF] nor [io.EOF]: the transport's errors do not
    reach the observer. *)
Theorem observer_arguments :
  forall pool cs rs w' hb herr,
    run cs (ClientHelloConn pool) = Ret (rs, w') ->
    In (hb, herr) (fn_calls (trace w')) ->
    match herr with
    | None => len hb <= 16380
    | Some e =>
        hb = [] /\ (Record_error e \/ Hello_error e) /\
        e <> io_ErrUnexpectedEOF /\ e <> io_EOF
    end.
Proof.
  intros pool cs rs w' hb herr Hr Hin.
  assert (Forall well_formed_call (fn_calls (trace w'))) as Hall.
  { eapply fn_calls_well_formed; [| exact Hr]. constructor. }
  rewrite Forall_forall in Hall. apply (Hall (hb, herr) Hin).
Qed.

Lemma observer_arguments_witness :
  @nil byte = [] /\ (Record_error errSSLv2 \/ Hello_error errSSLv2) /\
  errSSLv2 <> io_ErrUnexpectedEOF /\ errSSLv2 <> io_EOF.
Proof.
  apply (observer_arguments pool0
           [Call_Read (delivered [x80; x2e; x01; x00; x02])]
           [Reply_Read (delivered [x80; x2e; x01; x00; x02])]
           {| ch := {| buf := None; doneCH := true |};
              bufferPool := pool0;
              trace := [Ev_Conn_Read (delivered [x80; x2e; x01; x00; x02]);
                        Ev_fn [] (Some errSSLv2)] |}
           [] (Some errSSLv2));
    [reflexivity | left; reflexivity].
Defined.

(** ** The parsers: more bytes, and the order of the checks *)

(** X10. What [handshakeRecord] decides on a slice it decides on every
    extension of it, with the same payload or the same error: bytes that
    arrive later never change a result, and a slice that still needs more
    data has only prefixes that need more data. *)
Theorem handshakeRecord_more_bytes :
  forall s t,
    (forall p e,
       handshakeRecord s = Ret (p, e) -> e <> Some io_ErrUnexpectedEOF ->
       handshakeRecord (s ++ t) = Ret (p, e)) /\
    (forall p,
       handshakeRecord (s ++ t) = Ret (p, Some io_ErrUnexpectedEOF) ->
       handshakeRecord s = Ret ([], Some io_ErrUnexpectedEOF)).
Proof.
  intros s t. split.
  - intros p e Hs He. apply handshakeRecord_app_decided; [exact Hs |].
    destruct e as [[] |]; try reflexivity. congruence.
  - intros p. apply handshakeRecord_app_wait.
Qed.

Lemma handshakeRecord_more_bytes_witness :
  handshakeRecord ([x16; x03; x01; x00; x01; xaa] ++ [xbb; xcc])
  = Ret ([xaa], None) /\
  handshakeRecord [x16; x03; x01; x00] = Ret ([], Some io_ErrUnexpectedEOF).
Proof.
  split.
  - apply (handshakeRecord_more_bytes [x16; x03; x01; x00; x01; xaa] [xbb; xcc]);
      [reflexivity | discriminate].
  - apply (proj2 (handshakeRecord_more_bytes [x16; x03; x01; x00] [x02; xaa]) []).
    reflexivity.
Defined.

(** X11. The checks of [handshakeRecord] come in the order type, version,
    length: a handshake record whose major version is not 3 is refused
    with the version error, which carries the two version bytes, whatever
    its length field says and however few bytes follow. *)
Theorem handshakeRecord_version :
  forall typ v1 v0 l1 l0 payload,
    u8 typ = 22 -> u8 v1 <> 3 ->
    handshakeRecord (typ :: v1 :: v0 :: l1 :: l0 :: payload)
    = Ret ([], Some (errVersion (256 * u8 v1 + u8 v0))).
Proof.
  intros typ v1 v0 l1 l0 payload Ht Hv.
  rewrite handshakeRecord_header, Ht. cbn [Z.eqb Pos.eqb negb].
  apply Z.eqb_neq in Hv. rewrite Hv. reflexivity.
Qed.

Lemma handshakeRecord_version_witness :
  handshakeRecord [x16; x02; x00; xff; xff]
  = Ret ([], Some (errVersion (256 * u8 x02 + u8 x00))).
Proof.
  apply (handshakeRecord_version x16 x02 x00 xff xff []);
    [reflexivity | discriminate].
Defined.

(** X12. On a payload of at least 4 bytes [parseHello] checks the type
    before the length: a message type other than 1 is refused with the
    not-ClientHello error, which carries the type, whatever the length
    bytes are; with type 1, a declared length beyond the bytes that are
    there is refused with the invalid-length error and is never waited
    for. *)
Theorem parseHello_errors :
  forall typ b2 b1 b0 rest,
    (u8 typ <> 1 ->
     parseHello (typ :: b2 :: b1 :: b0 :: rest)
     = Ret ([], Some (errNotClientHello (u8 typ)))) /\
    (u8 typ = 1 -> len rest < be24 b2 b1 b0 ->
     parseHello (typ :: b2 :: b1 :: b0 :: rest) = Ret ([], Some errHelloLength) /\
     run_outcome (parseHello (typ :: b2 :: b1 :: b0 :: rest))
     = Ret (Invalid errHelloLength)).
Proof.
  intros typ b2 b1 b0 rest. split.
  - intros Ht. rewrite parseHello_header.
    apply Z.eqb_neq in Ht. now rewrite Ht.
  - intros Ht Hlen. rewrite parseHello_header, Ht. cbn [Z.eqb Pos.eqb negb].
    replace (be24 b2 b1 b0 >? len rest) with true by (symmetry; lia).
    split; reflexivity.
Qed.

Lemma parseHello_errors_witness :
  parseHello [x02; xff; xff; xff] = Ret ([], Some (errNotClientHello 2)) /\
  parseHello [x01; x00; x00; x02; xaa] = Ret ([], Some errHelloLength).
Proof.
  split.
  - apply (parseHello_errors x02 xff xff xff []). discriminate.
  - apply (parseHello_errors x01 x00 x00 x02 [xaa]); by_eval.
Defined.

(** ** Version and cipher suite names *)

Lemma map_index_In {V : Type} (m : list (Z * V)) (k : Z) (v : V) :
  map_index m k = Some v -> In (k, v) m.
Proof.
  induction m as [| [k' v'] m IH]; cbn [map_index In]; [discriminate |].
  destruct (Z.eqb_spec k k') as [-> | Hne].
  - intros [= ->]. now left.
  - intros H. right. now apply IH.
Qed.

Lemma map_index_None {V : Type} (m : list (Z * V)) (k : Z) :
  map_index m k = None <-> ~ In k (map fst m).
Proof.
  induction m as [| [k' v'] m IH]; cbn [map_index map In fst]; [tauto |].
  destruct (Z.eqb_spec k k') as [-> | Hne].
  - split; [discriminate | tauto].
  - rewrite IH. split; [intros H [E | E]; [congruence | tauto] | tauto].
Qed.

Lemma pairwise_check {V : Type} (m : list (Z * V)) (f : Z * V -> Z * V -> bool)
    (p q : Z * V) :
  forallb (fun p => forallb (f p) m) m = true ->
  In p m -> In q m -> f p q = true.
Proof.
  intros H Hp Hq. rewrite forallb_forall in H.
  specialize (H p Hp). rewrite forallb_forall in H. exact (H q Hq).
Qed.

(** X13. [VersionName] names exactly the seven codes of its table, gives
    the empty string for every other code, and gives different names to
    different codes, so that a name identifies the version. *)
Theorem VersionName_identifies :
  forall v,
    (VersionName v <> EmptyString <-> In v known_versions) /\
    (forall v', VersionName v = VersionName v' ->
                VersionName v <> EmptyString -> v = v').
Proof.
  intros v. unfold VersionName, known_versions. split.
  - destruct (map_index versionToName v) as [s |] eqn:E.
    + split.
      * intros _. apply map_index_In in E.
        change v with (fst (v, s)). now apply in_map.
      * intros _. apply map_index_In in E.
        assert (forallb (fun p => negb (String.eqb (snd p) EmptyString))
                        versionToName = true) as Hc by reflexivity.
        rewrite forallb_forall in Hc. specialize (Hc _ E).
        cbn [snd] in Hc. intros ->. discriminate.
    + apply map_index_None in E. tauto.
  - intros v' Heq Hne.
    destruct (map_index versionToName v) as [s |] eqn:E; [| congruence].
    destruct (map_index versionToName v') as [s' |] eqn:E'; [| congruence].
    subst s'. apply map_index_In in E, E'.
    pose proof (pairwise_check versionToName
                  (fun p q => implb (String.eqb (snd p) (snd q)) (fst p =? fst q))
                  (v, s) (v', s) eq_refl E E') as Hc.
    cbn [fst snd] in Hc. rewrite String.eqb_refl in Hc. cbn [implb] in Hc.
    now apply Z.eqb_eq.
Qed.

Lemma land_bit (f n : Z) :
  0 <= n -> Z.land f (2 ^ n) = if Z.testbit f n then 2 ^ n else 0.
Proof.
  intros Hn. apply Z.bits_inj'. intros m Hm.
  rewrite Z.land_spec, Z.pow2_bits_eqb by assumption.
  destruct (Z.eqb_spec n m) as [-> | Hne].
  - rewrite andb_true_r. destruct (Z.testbit f m) eqn:E.
    + rewrite Z.pow2_bits_eqb by assumption. now rewrite Z.eqb_refl.
    + now rewrite Z.bits_0.
  - rewrite andb_false_r. destruct (Z.testbit f n).
    + rewrite Z.pow2_bits_eqb by assumption.
      symmetry. now apply Z.eqb_neq.
    + now rewrite Z.bits_0.
Qed.

Lemma land_two_bits (f n m : Z) :
  0 <= n -> 0 <= m ->
  Z.land f (Z.lor (2 ^ n) (2 ^ m))
  = Z.lor (if Z.testbit f n then 2 ^ n else 0)
          (if Z.testbit f m then 2 ^ m else 0).
Proof.
  intros Hn Hm. now rewrite Z.land_lor_distr_r, !land_bit.
Qed.

(** X14. For every cipher suite value, whatever its flags: a suite that
    is TLS 1.3 only is reported as neither ECDHE nor RSA nor ECDSA; a
    suite is never both RSA and ECDSA; one that is not TLS 1.3 only is
    exactly one of the two; and on a nil suite every method answers
    false and the name is empty. *)
Theorem suite_kinds :
  forall cs,
    (TLS13 cs = true -> ECDHE cs = false /\ RSA cs = false /\ ECDSA cs = false) /\
    (RSA cs = true -> ECDSA cs = false) /\
    (cs <> None -> TLS13 cs = false -> RSA cs = negb (ECDSA cs)) /\
    (cs = None ->
     Name cs = EmptyString /\ ECDHE cs = false /\ RSA cs = false /\
     ECDSA cs = false /\ TLS12 cs = false /\ TLS13 cs = false).
Proof.
  intros [c |].
  - unfold TLS13, ECDHE, RSA, ECDSA.
    change suiteECDHE with (2 ^ 0). change suiteECDSA with (2 ^ 1).
    change suiteTLS13 with (2 ^ 3).
    rewrite !land_two_bits, land_bit by lia.
    destruct (Z.testbit (flags c) 0), (Z.testbit (flags c) 1),
      (Z.testbit (flags c) 3); cbn;
      (repeat split; try discriminate; try reflexivity; congruence).
  - cbn. repeat split; try discriminate; congruence.
Qed.

Lemma suite_kinds_witness :
  ECDHE (Some {| flags := 9; name := "x" |}) = false /\
  RSA (Some {| flags := 9; name := "x" |}) = false /\
  ECDSA (Some {| flags := 9; name := "x" |}) = false.
Proof.
  apply (suite_kinds (Some {| flags := 9; name := "x" |})). reflexivity.
Defined.

(** X15. For the suites of the table: the name is not empty and belongs
    to no other id; no suite is both TLS 1.2 only and TLS 1.3 only; every
    ECDSA suite is an ECDHE suite; and exactly one of RSA, ECDSA and
    TLS 1.3 only holds.  So [Name(CipherSuiteByID(id))] is empty exactly
    for the ids that are not in the table. *)
Theorem cipherSuites_consistent :
  forall id,
    (forall c, CipherSuiteByID id = Some c ->
       name c <> EmptyString /\
       (forall id' c', CipherSuiteByID id' = Some c' -> name c' = name c ->
                       id' = id) /\
       TLS12 (Some c) && TLS13 (Some c) = false /\
       (ECDSA (Some c) = true -> ECDHE (Some c) = true) /\
       (RSA (Some c) = true /\ ECDSA (Some c) = false /\ TLS13 (Some c) = false
        \/ RSA (Some c) = false /\ ECDSA (Some c) = true /\ TLS13 (Some c) = false
        \/ RSA (Some c) = false /\ ECDSA (Some c) = false /\ TLS13 (Some c) = true)) /\
    (Name (CipherSuiteByID id) = EmptyString <-> CipherSuiteByID id = None).
Proof.
  intros id.
  assert (forall c, CipherSuiteByID id = Some c -> name c <> EmptyString) as Hname.
  { intros c Hc. apply map_index_In in Hc.
    assert (forallb (fun p => negb (String.eqb (name (snd p)) EmptyString))
                    cipherSuites = true) as Hall by (vm_compute; reflexivity).
    rewrite forallb_forall in Hall. specialize (Hall _ Hc). cbn [snd] in Hall.
    intros E. rewrite E in Hall. discriminate. }
  split.
  - intros c Hc. split; [now apply Hname |].
    unfold CipherSuiteByID in *. apply map_index_In in Hc.
    split.
    { intros id' c' Hc' Hn. apply map_index_In in Hc'.
      assert (forallb
                (fun p => forallb
                   (fun q => implb (String.eqb (name (snd p)) (name (snd q)))
                                   (fst p =? fst q)) cipherSuites)
                cipherSuites = true) as Hall by (vm_compute; reflexivity).
      pose proof (pairwise_check cipherSuites _ (id', c') (id, c) Hall Hc' Hc)
        as Hpq.
      cbn [fst snd] in Hpq. rewrite Hn, String.eqb_refl in Hpq.
      now apply Z.eqb_eq. }
    assert (forallb
              (fun p =>
                 let s := Some (snd p) in
                 negb (TLS12 s && TLS13 s) && implb (ECDSA s) (ECDHE s) &&
                 (RSA s && negb (ECDSA s) && negb (TLS13 s)
                  || negb (RSA s) && ECDSA s && negb (TLS13 s)
                  || negb (RSA s) && negb (ECDSA s) && TLS13 s))
              cipherSuites = true) as Hall by (vm_compute; reflexivity).
    rewrite forallb_forall in Hall. specialize (Hall _ Hc).
    cbn [snd] in Hall.
    destruct (TLS12 (Some c)), (TLS13 (Some c)), (ECDSA (Some c)),
      (ECDHE (Some c)), (RSA (Some c)); cbn in Hall; try discriminate;
      (repeat split; auto 8; try discriminate).
  - destruct (CipherSuiteByID id) as [c |] eqn:Hc; cbn [Name].
    + split; [| discriminate]. intros E. now apply (Hname c) in E.
    + tauto.
Qed.

Lemma cipherSuites_consistent_witness :
  name {| flags := suiteTLS13; name := "TLS_AES_128_GCM_SHA256" |}
  <> EmptyString /\
  RSA (CipherSuiteByID 0x1301) = false /\
  ECDSA (CipherSuiteByID 0x1301) = false /\
  TLS13 (CipherSuiteByID 0x1301) = true.
Proof.
  destruct (cipherSuites_consistent 0x1301) as [Hknown _].
  destruct (Hknown {| flags := suiteTLS13; name := "TLS_AES_128_GCM_SHA256" |}
              eq_refl) as (Hn & _ & _ & _ & _).
  split; [exact Hn | repeat split].
Defined.

Lemma VersionName_identifies_witness :
  VersionName 0x0303 <> EmptyString /\
  (VersionName 0x0303 = VersionName tls.VersionTLS12 ->
   VersionName 0x0303 <> EmptyString -> 0x0303 = tls.VersionTLS12).
Proof.
  destruct (VersionName_identifies 0x0303) as [Hknown Hinj].
  split.
  - apply Hknown. vm_compute. tauto.
  - apply Hinj.
Defined.

(** ** One pool, many connections *)

(** X16. The pool carries nothing from one connection to the next: when
    a connection has been used in any way, a connection accepted
    afterwards, which takes its buffer from the same pool, calls its
    observer on its own bytes alone; and an error of the underlying
    listener is returned without a connection. *)
Theorem next_connection_starts_afresh :
  forall pool cs rs1 w1 rs,
    pool_clean pool ->
    run cs (ClientHelloConn pool) = Ret (rs1, w1) ->
    (forall e, Accept (Some e) (bufferPool w1) = (None, Some e)) /\
    exists w2 w',
      Accept None (bufferPool w1) = (Some w2, None) /\
      run (map Call_Read rs) w2 = Ret (map Reply_Read rs, w') /\
      fn_calls (trace w')
      = match sniff (sniffed rs) with
        | Ret (Some res) => [res]
        | _ => []
        end.
Proof.
  intros pool cs rs1 w1 rs Hc Hr. split; [reflexivity |].
  destruct (Inv_run cs _ w1 rs1 (Inv_start pool Hc) Hr) as [Hc1 _].
  destruct (run_reads_fn_calls (bufferPool w1) rs Hc1) as (w' & Hr' & Hm).
  exists (ClientHelloConn (bufferPool w1)), w'.
  split; [reflexivity | split; [exact Hr' |]].
  destruct (sniff (sniffed rs)) as [[res |] | msg]; tauto.
Qed.

Lemma next_connection_starts_afresh_witness :
  (forall e, Accept (Some e) (bufferPool (closed half_read None)) = (None, Some e)) /\
  exists w2 w',
    Accept None (bufferPool (closed half_read None)) = (Some w2, None) /\
    run (map Call_Read [delivered [x01; x00]; delivered [x00; x00; x00]]) w2
    = Ret (map Reply_Read [delivered [x01; x00]; delivered [x00; x00; x00]], w') /\
    fn_calls (trace w') = [([], Some errNotHandshake)].
Proof.
  apply (next_connection_starts_afresh pool0
           [Call_Read (delivered [x16; x03; x01]); Call_Close None]
           [Reply_Read (delivered [x16; x03; x01]); Reply_Close None]
           (closed half_read None)
           [delivered [x01; x00]; delivered [x00; x00; x00]]);
    [constructor | reflexivity].
Defined.
